(** * The q language server: request handlers over the annotated token stream

    The handlers of [QLangServer] (rename, completion, outline, position
    lookup) are embedded as Rocq functions.  Everything they import from
    the parser module is an operation of the class [Parser]; the handlers
    are verified for every implementation of it.  The resolver that the
    parser module exports is modelled separately, in [ParserSpec], from its
    written description. *)

From Stdlib Require Import NArith Ascii String List Lia.
From stdpp Require Import base option list strings gmap pretty.

#[local] Set Warnings "-register-all".

(** ** JavaScript primitives used by the handlers *)

Module JS.

Definition dot : ascii := "."%char.

(** [s.startsWith(".")] *)
Definition startsWithDot (s : string) : bool :=
  match s with
  | String a _ => Ascii.eqb a dot
  | EmptyString => false
  end.

(** [s.split(/\./g)]: the pieces between successive dots.  The result is
    never the empty array; the empty string splits into one empty piece. *)
Fixpoint split (s : string) : list string :=
  match s with
  | EmptyString => [EmptyString]
  | String a rest =>
      if Ascii.eqb a dot then EmptyString :: split rest
      else match split rest with
           | piece :: pieces => String a piece :: pieces
           | [] => [String a EmptyString]
           end
  end.

(** No character of [s] is a dot. *)
Fixpoint noDot (s : string) : bool :=
  match s with
  | EmptyString => true
  | String a rest => negb (Ascii.eqb a dot) && noDot rest
  end.

(** [s.split(/\./g, limit)]: the array is cut after [limit] pieces, the
    remainder of the string is dropped (not glued to the last piece). *)
Definition splitLimit (s : string) (limit : nat) : list string :=
  take limit (split s).

(** Truthiness of a string: every string but the empty one. *)
Definition truthy (s : string) : bool :=
  match s with
  | EmptyString => false
  | String _ _ => true
  end.

(** Truthiness of an optional string field. *)
Definition truthyString (s : option string) : bool :=
  match s with
  | Some v => truthy v
  | None => false
  end.

(** Truthiness of an optional number field: [undefined] (and [NaN], which
    the model does not tell apart from it) and [0] are falsy. *)
Definition truthyNumber (n : option N) : bool :=
  match n with
  | Some (Npos _) => true
  | _ => false
  end.

(** [n || d] on an optional number field. *)
Definition orNumber (n : option N) (d : N) : N :=
  if truthyNumber n then default d n else d.

(** White space removed by [String.prototype.trim], restricted to the
    one-byte characters. *)
Definition isSpace (a : ascii) : bool :=
  match N_of_ascii a with
  | 9 | 10 | 11 | 12 | 13 | 32 => true
  | _ => false
  end%N.

Fixpoint trimStart (s : string) : string :=
  match s with
  | EmptyString => EmptyString
  | String a rest => if isSpace a then trimStart rest else s
  end.

Fixpoint trimEnd (s : string) : string :=
  match s with
  | EmptyString => EmptyString
  | String a rest =>
      match trimEnd rest with
      | EmptyString => if isSpace a then EmptyString else String a EmptyString
      | kept => String a kept
      end
  end.

Definition trim (s : string) : string := trimEnd (trimStart s).

(** [pieces.join(" ")] *)
Fixpoint join (pieces : list string) : string :=
  match pieces with
  | [] => EmptyString
  | [piece] => piece
  | piece :: more => piece +:+ " " +:+ join more
  end.

End JS.

(** ** Protocol types of vscode-languageserver

    Lines and characters are unsigned counts. *)

Module Position.
Record t := create { line : N; character : N }.
End Position.

Module Range.
Record t := make { start : Position.t; end_ : Position.t }.

(** [Range.create(startLine, startCharacter, endLine, endCharacter)] *)
Definition create (l1 c1 l2 c2 : N) : t :=
  make (Position.create l1 c1) (Position.create l2 c2).
End Range.

Module Location.
Record t := create { uri : string; range : Range.t }.
End Location.

Module TextEdit.
Record t := replace { range : Range.t; newText : string }.
End TextEdit.

Module WorkspaceEdit.
Record t := make { changes : gmap string (list TextEdit.t) }.
End WorkspaceEdit.

Inductive CompletionItemKind := CompletionFunction | CompletionVariable.

Module CompletionItem.
Record t := make {
  label : string;
  labelDetails_detail : string;
  insertText : string;
  kind : CompletionItemKind
}.
End CompletionItem.

Inductive SymbolKind := SymbolObject | SymbolVariable.

Module DocumentSymbol.
Inductive t := create {
  name : string;
  detail : option string;
  kind : SymbolKind;
  range : Range.t;
  selectionRange : Range.t;
  children : option (list t)
}.
End DocumentSymbol.

(** ** Tokens

    Token objects are shared: [scope], [tangled] and [assignment] point at
    other tokens of the same parse, and the handlers compare tokens by
    identity.  A token is therefore its identity, and its fields are read
    from the object store. *)

(** Modelled from the spec: the lexer's table of token types is not part of
    these sources; the categories are the ones the data model lists. *)
Inductive TokenType :=
  | Identifier
  | Keyword
  | Operator
  | NumberLiteral
  | CharLiteral
  | SymbolLiteral
  | Punctuation
  | LCurly
  | RCurly
  | OtherType (name : string).

Definition TokenType_name (tt : TokenType) : string :=
  match tt with
  | Identifier => "Identifier"
  | Keyword => "Keyword"
  | Operator => "Operator"
  | NumberLiteral => "NumberLiteral"
  | CharLiteral => "CharLiteral"
  | SymbolLiteral => "SymbolLiteral"
  | Punctuation => "Punctuation"
  | LCurly => "LCurly"
  | RCurly => "RCurly"
  | OtherType name => name
  end.

Definition Token := nat.

(** Modelled from the spec: the declaration of the token type is in the
    parser module, which is not among the sources.  The fields are the ones
    the handlers read, typed as the data model describes them: positions
    are 1-based counts that may be missing, [error] is a code, and the
    three relations hold token identities. *)
Record TokenObject := {
  image : string;
  tokenType : TokenType;
  startLine : option N;
  startColumn : option N;
  endLine : option N;
  endColumn : option N;
  namespace : option string;
  error : option N;
  order : option N;
  tangled : option Token;
  scope : option Token;
  assignment : option (list Token)
}.

Definition Heap := Token → TokenObject.

Inductive FindKind := Reference | Definition_ | Rename | Completion.

(** The imports from the parser module.  A result that the handlers only
    test is a [bool] (its truthiness); one that they compare or pass on is
    the token or [undefined]. *)
Class Parser := {
  parse : string → list Token;
  findIdentifiers : FindKind → list Token → option Token → list Token;
  inLambda : Token → option Token;
  amended : Token → bool;
  identifier : Token → string;
  tokenId : Token → string;
  assigned : Token → option Token;
  lambda : option Token → bool;
  assignable : Token → bool;
  qualified : Token → bool
}.

Record Settings := { debug : bool; linting : bool }.

Definition defaultSettings : Settings := {| debug := false; linting := false |}.

(** ** The handlers *)

Section Server.

Context (heap : Heap) {parser : Parser}.

Notation "t .[ f ]" := (f (heap t)) (format "t .[ f ]").

Definition rangeFromToken (token : Token) : Range.t :=
  Range.create
    (JS.orNumber token.[startLine] 1 - 1)
    (JS.orNumber token.[startColumn] 1 - 1)
    (JS.orNumber token.[endLine] 1 - 1)
    (JS.orNumber token.[endColumn] 1).

Definition positionToToken (tokens : list Token) (position : Position.t) : option Token :=
  find (λ token,
    let r := rangeFromToken token in
    let start := Range.start r in
    let end_ := Range.end_ r in
    (Position.line start <=? Position.line position)%N &&
    (Position.line position <=? Position.line end_)%N &&
    (Position.character start <=? Position.character position)%N &&
    (Position.character position <=? Position.character end_)%N) tokens.

Definition relative (token : Token) (ns : option string) : string :=
  let unqualified :=
    if bool_decide (token.[namespace] = ns) then token.[image]
    else identifier token in
  if qualified token then
    match JS.splitLimit token.[image] 3 with
    | [_dot; target; image] =>
        if JS.truthy image && bool_decide (Some target = ns) then image
        else unqualified
    | _ => unqualified
    end
  else unqualified.

Definition createCompletionItem (token : Token) (source : option Token) : CompletionItem.t :=
  {| CompletionItem.label := token.[image];
     CompletionItem.labelDetails_detail := " " +:+ identifier token;
     CompletionItem.insertText := relative token (source ≫= λ s, s.[namespace]);
     CompletionItem.kind :=
       if lambda (assigned token) then CompletionFunction else CompletionVariable |}.

Definition createTextEdit (token : Token) (newName : string) : TextEdit.t :=
  let newName :=
    if negb (JS.startsWithDot newName) then
      if qualified token then
        match JS.splitLimit token.[image] 3 with
        | [_dot; namespace; image] =>
            if JS.truthy image then "." +:+ namespace +:+ "." +:+ newName
            else newName
        | _ => newName
        end
      else newName
    else newName in
  TextEdit.replace (rangeFromToken token) newName.

(** [createSymbol] calls itself on the tokens assigned inside the lambda
    that [token] is bound to.  Nothing in the handler bounds the depth of
    that recursion, so the embedding is given [fuel]; running out of it is
    [None]. *)
Fixpoint createSymbol (fuel : nat) (token : Token) (tokens : list Token) : option DocumentSymbol.t :=
  match fuel with
  | O => None
  | S fuel =>
      let range := rangeFromToken token in
      children ← mapM (λ child, createSymbol fuel child tokens)
        (List.filter (λ child,
           bool_decide (is_Some (assigned child)) &&
           assignable child &&
           bool_decide (inLambda child = assigned token)) tokens);
      Some (DocumentSymbol.create
        (JS.trim (identifier token))
        (if amended token then Some "Amend" else None)
        (if lambda (assigned token) then SymbolObject else SymbolVariable)
        range
        range
        (Some children))
  end.

Definition createDebugSymbol (token : Token) : DocumentSymbol.t :=
  let range := rangeFromToken token in
  DocumentSymbol.create
    (tokenId token)
    (Some (TokenType_name token.[tokenType] +:+ " " +:+
       (if JS.truthyString token.[namespace]
        then "(" +:+ default EmptyString token.[namespace] +:+ ")" else EmptyString) +:+ " " +:+
       (match token.[error] with Some e => "E=" +:+ pretty e | None => EmptyString end) +:+ " " +:+
       (if JS.truthyNumber token.[order]
        then "O=" +:+ pretty (default 0%N token.[order]) else EmptyString) +:+ " " +:+
       (match token.[tangled] with Some t => "T=" +:+ tokenId t | None => EmptyString end) +:+ " " +:+
       (match token.[scope] with Some t => "S=" +:+ tokenId t | None => EmptyString end) +:+ " " +:+
       (match token.[assignment] with
        | Some group => "A=" +:+ JS.join (map tokenId group)
        | None => EmptyString
        end)))
    SymbolVariable
    range
    range
    None.

End Server.

(** The server object: its settings and the open documents (uri to text).
    The handlers below only read it. *)
Module QLangServer.

Record t := {
  settings : Settings;
  documents : gmap string string
}.

Section Handlers.

Context (heap : Heap) {parser : Parser}.

Definition parse (this : t) (uri : string) : list Token :=
  match documents this !! uri with
  | None => []
  | Some text => parse text
  end.

Definition onDocumentSymbol (fuel : nat) (this : t) (uri : string) : option (list DocumentSymbol.t) :=
  let tokens := parse this uri in
  if debug (settings this) then
    Some (map (λ token, createDebugSymbol heap token) tokens)
  else
    mapM (λ token, createSymbol heap fuel token tokens)
      (List.filter (λ token,
         assignable token &&
         bool_decide (is_Some (assigned token)) &&
         negb (bool_decide (is_Some (inLambda token)))) tokens).

Definition onReferences (this : t) (uri : string) (position : Position.t) : list Location.t :=
  let tokens := parse this uri in
  let source := positionToToken heap tokens position in
  map (λ token, Location.create uri (rangeFromToken heap token))
    (findIdentifiers Reference tokens source).

Definition onDefinition (this : t) (uri : string) (position : Position.t) : list Location.t :=
  let tokens := parse this uri in
  let source := positionToToken heap tokens position in
  map (λ token, Location.create uri (rangeFromToken heap token))
    (findIdentifiers Definition_ tokens source).

Definition onRenameRequest (this : t) (uri : string) (position : Position.t) (newName : string) : option WorkspaceEdit.t :=
  let tokens := parse this uri in
  let source := positionToToken heap tokens position in
  let edits :=
    map (λ token, createTextEdit heap token newName)
      (findIdentifiers Rename tokens source) in
  if (length edits =? 0)%nat then None
  else Some (WorkspaceEdit.make {[ uri := edits ]}).

Definition onCompletion (this : t) (uri : string) (position : Position.t) : list CompletionItem.t :=
  let tokens := parse this uri in
  let source := positionToToken heap tokens position in
  map (λ token, createCompletionItem heap token source)
    (findIdentifiers Completion tokens source).

End Handlers.

End QLangServer.

(** ** The resolver of the parser module, from its description *)

Module ParserSpec.

Section Resolver.

Context (heap : Heap).

(** The annotator's assignment mark: the token that opens the value
    assigned to a name, when the name is followed by an unbracketed colon.
    The description does not say which field carries it, so it stays an
    operation of the section. *)
Variable assigned : Token → option Token.

Notation "t .[ f ]" := (f (heap t)) (format "t .[ f ]").

(** Modelled from the spec: the parser's predicate, which is not among the
    sources.  "A token is qualified iff image begins with a namespace-dot
    prefix." *)
Definition qualified (token : Token) : bool :=
  JS.startsWithDot token.[image].

(** Modelled from the spec: the parser's predicate, which is not among the
    sources.  "inLambda (true iff scope !== undefined)". *)
Definition inLambda (token : Token) : option Token :=
  token.[scope].

(** Modelled from the spec: the parser's predicate, which is not among the
    sources.  "A token that is syntactically a valid assignment target (a
    name), excluding literals, keywords, and operators." *)
Definition assignable (token : Token) : bool :=
  match token.[tokenType] with
  | Identifier => true
  | _ => false
  end.

(** Modelled from the spec: the parser's predicate, which is not among the
    sources.  "True when the assigned value is itself a function literal
    (the right-hand side begins with an opening brace)." *)
Definition lambda (value : option Token) : bool :=
  match value with
  | Some v => match v.[tokenType] with LCurly => true | _ => false end
  | None => false
  end.

(** Modelled from the spec: a token that binds its name, "assigned &&
    assignable". *)
Definition isAssignment (token : Token) : bool :=
  assignable token && bool_decide (is_Some (assigned token)).

(** Modelled from the spec: "whose image/namespace match". *)
Definition matches (token source : Token) : bool :=
  bool_decide (token.[image] = source.[image]) &&
  bool_decide (token.[namespace] = source.[namespace]).

(** Modelled from the spec: a local binding of [source] in the lambda
    opened by [body], "a matching assigned token whose scope equals source.scope (same lambda
    body) and whose image/namespace match".  An assignment to a qualified
    name is a namespace binding wherever it is written ("a qualified
    identifier always resolves directly against namespace ns, ignoring
    current scope"), so it is never a local one. *)
Definition localBinding (body : Token) (source token : Token) : bool :=
  isAssignment token &&
  negb (qualified token) &&
  bool_decide (token.[scope] = Some body) &&
  matches token source.

(** Modelled from the spec: the name under which a token is looked up at
    the global level.  "Unqualified identifiers resolve against the
    namespace in effect at their statement", a qualified one against the
    namespace it spells out. *)
Definition globalName (token : Token) : string :=
  if qualified token then token.[image]
  else match token.[namespace] with
       | Some ns => "." +:+ ns +:+ "." +:+ token.[image]
       | None => token.[image]
       end.

(** Modelled from the spec: what a name resolves to, a binding local to
    one lambda body or a global name. *)
Inductive Binding :=
  | Local (body : Token) (ns : option string) (name : string)
  | Global (name : string).

#[global] Instance Binding_eq_dec : EqDecision Binding.
Proof. solve_decision. Defined.

(** Modelled from the spec: the two-step lookup of the resolver, which is
    not among the sources.  The lambda body of the token is searched
    first; without a local binding there, the name is a global one.  No
    other lambda is consulted. *)
Definition resolve (tokens : list Token) (token : Token) : Binding :=
  match token.[scope] with
  | Some body =>
      if existsb (localBinding body token) tokens
      then Local body token.[namespace] token.[image]
      else Global (globalName token)
  | None => Global (globalName token)
  end.

(** Modelled from the spec: "if source is unqualified and has no local
    binding and no global binding in its namespace, it is unresolved". *)
Definition resolved (tokens : list Token) (source : Token) : bool :=
  qualified source ||
  match resolve tokens source with
  | Local _ _ _ => true
  | Global name =>
      existsb (λ token,
        isAssignment token &&
        bool_decide (resolve tokens token = Global name)) tokens
  end.

(** Modelled from the spec: the bindings visible from [source], "local
    assignments of the enclosing lambda (if any) plus all global/namespace
    assignments". *)
Definition visible (tokens : list Token) (source token : Token) : bool :=
  match resolve tokens token with
  | Global _ => true
  | Local body _ _ => bool_decide (source.[scope] = Some body)
  end.

(** Modelled from the spec: the resolver's entry point, which is not among
    the sources; the per-kind output is the one of the description. *)
Definition findIdentifiers (kind : FindKind) (tokens : list Token) (source : option Token) : list Token :=
  match source with
  | None => []
  | Some source =>
      if negb (assignable source) then []
      else
        let same token := bool_decide (resolve tokens token = resolve tokens source) in
        match kind with
        | Completion =>
            List.filter (λ token, isAssignment token && visible tokens source token) tokens
        | Definition_ =>
            if resolved tokens source
            then List.filter (λ token, isAssignment token && same token) tokens
            else []
        | Reference | Rename =>
            if resolved tokens source
            then List.filter (λ token, assignable token && same token) tokens
            else []
        end
  end.

End Resolver.

End ParserSpec.

(** ** Vocabulary of the statements *)

Section Vocabulary.

Context (heap : Heap) {parser : Parser}.

(** A position field with the default of the position mapping: a field
    that is missing or zero counts as 1. *)
Definition fieldOrOne (field : option N) : N :=
  match field with
  | None => 1
  | Some 0 => 1
  | Some n => n
  end%N.

(** The 0-based range of a token contains the cursor, lines and characters
    being compared separately. *)
Definition covers (token : Token) (position : Position.t) : Prop :=
  let r := rangeFromToken heap token in
  (Position.line (Range.start r) ≤ Position.line position ≤ Position.line (Range.end_ r))%N ∧
  (Position.character (Range.start r) ≤ Position.character position
     ≤ Position.character (Range.end_ r))%N.

(** A token that the outline lists at the top level. *)
Definition topLevel (token : Token) : bool :=
  assignable token &&
  bool_decide (is_Some (assigned token)) &&
  negb (bool_decide (is_Some (inLambda token))).

(** [rank] goes down from an assigned name to the names assigned inside
    the lambda it is bound to. *)
Definition wellNested (rank : Token → nat) (tokens : list Token) : bool :=
  forallb (λ token,
    forallb (λ child,
      implb (bool_decide (is_Some (assigned token)) &&
             bool_decide (is_Some (assigned child)) &&
             assignable child &&
             bool_decide (inLambda child = assigned token))
            (rank child <? rank token)%nat) tokens) tokens.

End Vocabulary.

(** ** A parsed document to run the definitions on

    The five lines
<<
    f:{[x] y:x+1; y}
    b:1
    b
    .ns.f:{y:2}
    while
>>
    with the annotations the description gives them. *)

Module Fixture.

Definition tok (img : string) (tt : TokenType) (ln c1 c2 : N) (ns : option string) (sc : option Token) : TokenObject :=
  {| image := img; tokenType := tt;
     startLine := Some ln; startColumn := Some c1;
     endLine := Some ln; endColumn := Some c2;
     namespace := ns; error := None; order := None;
     tangled := None; scope := sc; assignment := None |}.

Definition arena : list TokenObject :=
  [ tok "f" Identifier 1 1 1 None None;
    tok ":" Operator 1 2 2 None None;
    tok "{" LCurly 1 3 3 None None;
    tok "[" Punctuation 1 4 4 None (Some 2);
    tok "x" Identifier 1 5 5 None (Some 2);
    tok "]" Punctuation 1 6 6 None (Some 2);
    tok "y" Identifier 1 8 8 None (Some 2);
    tok ":" Operator 1 9 9 None (Some 2);
    tok "x" Identifier 1 10 10 None (Some 2);
    tok "+" Operator 1 11 11 None (Some 2);
    tok "1" NumberLiteral 1 12 12 None (Some 2);
    tok ";" Punctuation 1 13 13 None (Some 2);
    tok "y" Identifier 1 15 15 None (Some 2);
    tok "}" RCurly 1 16 16 None (Some 2);
    tok "b" Identifier 2 1 1 None None;
    tok ":" Operator 2 2 2 None None;
    tok "1" NumberLiteral 2 3 3 None None;
    tok "b" Identifier 3 1 1 None None;
    tok ".ns.f" Identifier 4 1 5 (Some "ns") None;
    tok ":" Operator 4 6 6 None None;
    tok "{" LCurly 4 7 7 None None;
    tok "y" Identifier 4 8 8 None (Some 20);
    tok ":" Operator 4 9 9 None (Some 20);
    tok "2" NumberLiteral 4 10 10 None (Some 20);
    tok "}" RCurly 4 11 11 None (Some 20);
    tok "while" Keyword 5 1 5 None None ].

(** A token without any field set, for the identities that are not in use. *)
Definition blank : TokenObject :=
  {| image := EmptyString; tokenType := OtherType EmptyString;
     startLine := None; startColumn := None; endLine := None; endColumn := None;
     namespace := None; error := None; order := None;
     tangled := None; scope := None; assignment := None |}.

Definition heap : Heap := λ t, nth t arena blank.

Definition assignedTo (t : Token) : option Token :=
  match t with
  | 0 => Some 2
  | 6 => Some 8
  | 14 => Some 16
  | 18 => Some 20
  | 21 => Some 23
  | _ => None
  end.

Definition newline : string := String (ascii_of_nat 10) EmptyString.

Definition text : string :=
  "f:{[x] y:x+1; y}" +:+ newline +:+ "b:1" +:+ newline +:+ "b" +:+ newline +:+
  ".ns.f:{y:2}" +:+ newline +:+ "while".

Definition parser : Parser := {|
  parse := λ s, if String.eqb s text then seq 0 (length arena) else [];
  findIdentifiers := ParserSpec.findIdentifiers heap assignedTo;
  inLambda := ParserSpec.inLambda heap;
  amended := λ _, false;
  identifier := ParserSpec.globalName heap;
  tokenId := λ t, image (heap t) +:+ "@" +:+ pretty (N.of_nat t);
  assigned := assignedTo;
  lambda := ParserSpec.lambda heap;
  assignable := ParserSpec.assignable heap;
  qualified := ParserSpec.qualified heap
|}.

Definition uri : string := "file:///a.q".

Definition server (dbg : bool) : QLangServer.t :=
  {| QLangServer.settings := {| debug := dbg; linting := false |};
     QLangServer.documents := {[ uri := text ]} |}.

(** Nesting depth of the lambda a name is bound to; bounds the recursion
    of [createSymbol] on this document. *)
Definition rank (t : Token) : nat :=
  match t with
  | 0 | 18 => 1
  | _ => 0
  end.

End Fixture.

(** ** Configuration changes

    The settings arrive as a JSON value. *)

Inductive Json :=
  | JNull
  | JBool (b : bool)
  | JNumber (n : Z)
  | JString (s : string)
  | JArray (items : list Json)
  | JObject (members : list (string * Json)).

Module JsonValue.

(** The value of a member of an object; of two members with one key the
    later one counts, as after [JSON.parse]. *)
Fixpoint member (key : string) (members : list (string * Json)) : option Json :=
  match members with
  | [] => None
  | (k, v) :: more =>
      match member key more with
      | Some later => Some later
      | None => if String.eqb k key then Some v else None
      end
  end.

(** [key in value]: a type error on a primitive, false on an array for a
    key that is no index. *)
Definition hasKey (key : string) (value : Json) : option bool :=
  match value with
  | JObject members => Some (bool_decide (is_Some (member key members)))
  | JArray _ => Some false
  | _ => None
  end.

(** [value.key] for a key that no primitive wrapper or array defines: a
    type error on null, the member of an object, [undefined] elsewhere. *)
Definition property (value : Json) (key : string) : option (option Json) :=
  match value with
  | JNull => None
  | JObject members => Some (member key members)
  | _ => Some None
  end.

(** [v === true || false] *)
Definition strictlyTrue (v : option Json) : bool :=
  match v with
  | Some (JBool true) => true
  | _ => false
  end.

End JsonValue.

Module QLangServerSettings.

Definition setSettings (this : QLangServer.t) (settings : Settings) : QLangServer.t :=
  {| QLangServer.settings := settings;
     QLangServer.documents := QLangServer.documents this |}.

(** The server after the notification; [None] when the handler throws. *)
Definition onDidChangeConfiguration (this : QLangServer.t) (settings : Json) : option QLangServer.t :=
  present ← JsonValue.hasKey "kdb" settings;
  if present : bool then
    kdb ← JsonValue.property settings "kdb";
    debug_parser ← JsonValue.property (default JNull kdb) "debug_parser";
    linting ← JsonValue.property (default JNull kdb) "linting";
    Some (setSettings this
      {| debug := JsonValue.strictlyTrue debug_parser;
         linting := JsonValue.strictlyTrue linting |})
  else Some this.

End QLangServerSettings.

(** ** Walking an outline *)

(** [P] holds of a symbol and of all the symbols below it. *)
Fixpoint everySymbol (P : DocumentSymbol.t → bool) (symbol : DocumentSymbol.t) : bool :=
  P symbol &&
  match symbol with
  | DocumentSymbol.create _ _ _ _ _ (Some children) => forallb (everySymbol P) children
  | DocumentSymbol.create _ _ _ _ _ None => true
  end.

(** The order of positions: by line, then by character. *)
Definition positionBefore (p q : Position.t) : Prop :=
  (Position.line p < Position.line q)%N
  ∨ (Position.line p = Position.line q ∧ (Position.character p < Position.character q)%N).

(** ** Connection labels (utils/connLabel.ts)

    The functions work on two lists of the extension state, read the
    workspace configuration and write to it and to the output log.  The
    state is passed explicitly; what a function writes is the list of its
    effects, in order.  The colour type is declared elsewhere; only its
    name is read. *)

Module ConnLabel.

Record Labels (Color : Type) := { name : string; color : Color }.

Record ConnectionLabels := { labelName : string; connections : list string }.

(** The part of the extension variables that the functions use. *)
Record Ext (Color : Type) := {
  connLabelList : list (Labels Color);
  labelConnMapList : list ConnectionLabels;
  labelColors : list Color
}.

(** The two settings read with [workspace.getConfiguration().get]. *)
Record Configuration (Color : Type) := {
  kdb_connectionLabels : option (list (Labels Color));
  kdb_labelsConnectionMap : option (list ConnectionLabels)
}.

Inductive Effect (Color : Type) :=
  | OutputLog (message level : string)
  | UpdateConnectionLabels (value : list (Labels Color))
  | UpdateLabelsConnectionMap (value : list ConnectionLabels).

Arguments name {Color}.
Arguments color {Color}.
Arguments connLabelList {Color}.
Arguments labelConnMapList {Color}.
Arguments labelColors {Color}.
Arguments kdb_connectionLabels {Color}.
Arguments kdb_labelsConnectionMap {Color}.
Arguments OutputLog {Color}.
Arguments UpdateConnectionLabels {Color}.
Arguments UpdateLabelsConnectionMap {Color}.

(** [array.push(x)] *)
Definition push {A} (array : list A) (x : A) : list A := array ++ [x].

(** [connections.includes(connName)] *)
Definition includes (connections : list string) (connName : string) : bool :=
  existsb (String.eqb connName) connections.

(** The object that [find] returned is changed in place: the first
    element that satisfies [p] is replaced by its image. *)
Fixpoint mutateFirst {A} (p : A → bool) (f : A → A) (array : list A) : list A :=
  match array with
  | [] => []
  | x :: more => if p x then f x :: more else x :: mutateFirst p f more
  end.

Section Functions.

Context {Color : Type} (colorName : Color → string).

Definition getWorkspaceLabels (config : Configuration Color) (ext : Ext Color) : Ext Color :=
  let cleared : list (Labels Color) := [] in
  {| connLabelList :=
       match kdb_connectionLabels config with
       | Some existingConnLbls =>
           if (0 <? length existingConnLbls)%nat
           then foldl push cleared existingConnLbls
           else cleared
       | None => cleared
       end;
     labelConnMapList := labelConnMapList ext;
     labelColors := labelColors ext |}.

Definition createNewLabel (config : Configuration Color) (name colorName' : string)
    (ext : Ext Color) : Ext Color * list (Effect Color) :=
  let ext := getWorkspaceLabels config ext in
  let color := find (λ color, String.eqb (colorName color) colorName') (labelColors ext) in
  let logged :=
    if String.eqb name EmptyString
    then [OutputLog "Label name can't be empty" "ERROR"] else [] in
  match color with
  | Some color =>
      if negb (String.eqb name EmptyString) then
        let newLbl := {| ConnLabel.name := name; ConnLabel.color := color |} in
        let list := push (connLabelList ext) newLbl in
        ({| connLabelList := list;
            labelConnMapList := labelConnMapList ext;
            labelColors := labelColors ext |},
         logged ++ [UpdateConnectionLabels list])
      else (ext, logged ++ [OutputLog "No Color selected for the label" "ERROR"])
  | None => (ext, logged ++ [OutputLog "No Color selected for the label" "ERROR"])
  end.

Definition getWorkspaceLabelsConnMap (config : Configuration Color) (ext : Ext Color) : Ext Color :=
  let cleared : list ConnectionLabels := [] in
  {| connLabelList := connLabelList ext;
     labelConnMapList :=
       match kdb_labelsConnectionMap config with
       | Some existingLabelConnMaps =>
           if (0 <? length existingLabelConnMaps)%nat
           then foldl push cleared existingLabelConnMaps
           else cleared
       | None => cleared
       end;
     labelColors := labelColors ext |}.

Definition withLabelConnMapList (ext : Ext Color) (list : list ConnectionLabels) : Ext Color :=
  {| connLabelList := connLabelList ext;
     labelConnMapList := list;
     labelColors := labelColors ext |}.

Definition addConnToLabel (labelName' connName : string) (ext : Ext Color) : Ext Color :=
  let fresh := {| labelName := labelName'; connections := [connName] |} in
  match find (λ lbl, String.eqb (name lbl) labelName') (connLabelList ext) with
  | Some label =>
      if (0 <? length (labelConnMapList ext))%nat then
        match find (λ lbl, String.eqb (labelName lbl) labelName') (labelConnMapList ext) with
        | Some labelConnMap =>
            if negb (includes (connections labelConnMap) connName) then
              withLabelConnMapList ext
                (mutateFirst (λ lbl, String.eqb (labelName lbl) labelName')
                   (λ lbl, {| labelName := labelName lbl;
                              connections := push (connections lbl) connName |})
                   (labelConnMapList ext))
            else ext
        | None => withLabelConnMapList ext (push (labelConnMapList ext) fresh)
        end
      else withLabelConnMapList ext (push (labelConnMapList ext) fresh)
  | None => ext
  end.

Definition removeConnFromLabels (connName : string) (ext : Ext Color) : Ext Color :=
  withLabelConnMapList ext
    (map (λ labelConnMap,
       if includes (connections labelConnMap) connName then
         {| labelName := labelName labelConnMap;
            connections :=
              List.filter (λ conn, negb (String.eqb conn connName)) (connections labelConnMap) |}
       else labelConnMap) (labelConnMapList ext)).

Definition handleLabelsConnMap (labels : list string) (connName : string)
    (ext : Ext Color) : Ext Color * list (Effect Color) :=
  let ext := removeConnFromLabels connName ext in
  let ext := foldl (λ ext label, addConnToLabel label connName ext) ext labels in
  (ext, [UpdateLabelsConnectionMap (labelConnMapList ext)]).

End Functions.

(** A state with three labels, two of them with connections. *)
Definition sampleExt : Ext string :=
  {| connLabelList :=
       [ {| name := "prod"; color := "red" |};
         {| name := "dev"; color := "blue" |};
         {| name := "test"; color := "green" |} ];
     labelConnMapList :=
       [ {| labelName := "prod"; connections := ["local"; "insights"] |};
         {| labelName := "dev"; connections := ["local"] |} ];
     labelColors := ["red"; "blue"; "green"] |}.

Definition sampleConfig : Configuration string :=
  {| kdb_connectionLabels := Some [ {| name := "prod"; color := "red" |} ];
     kdb_labelsConnectionMap := None |}.

End ConnLabel.

(** ** The results panel (services/resultsPanelProvider.ts)

    [convertToGrid] turns a query result into markup or into the options
    of a grid, and records the result as CSV in the extension state.  The
    two converters to a vector of rows are imported from the execution
    utilities and are operations of the section. *)

Module ResultsPanel.

(** A value returned, or the type error that a read of a property of
    [undefined] throws. *)
Inductive Outcome (A : Type) :=
  | Return (a : A)
  | TypeError.

Arguments Return {A}.
Arguments TypeError {A}.

(** A row object of the grid: field to cell.  A cell read beyond the end
    of its row is [undefined]. *)
Definition RowObject := gmap string (option string).

Record ColDef := {
  sortable : bool;
  resizable : bool;
  filter : bool;
  flex : N;
  minWidth : N
}.

Record GridOptions := {
  defaultColDef : ColDef;
  rowData : list RowObject;
  columnDefs : list string
}.

Inductive Converted :=
  | Markup (html : string)
  | Grid (options : GridOptions).

(** [pieces.join(separator)] *)
Fixpoint joinWith (separator : string) (pieces : list string) : string :=
  match pieces with
  | [] => EmptyString
  | [piece] => piece
  | piece :: more => piece +:+ separator +:+ joinWith separator more
  end.

(** [obj[key] = value] on an object literal: the key that names the
    prototype takes no string and no [undefined], every other key becomes
    or stays a property of the object. *)
Definition setProperty (obj : RowObject) (key : string) (value : option string) : RowObject :=
  if String.eqb key "__proto__" then obj else <[ key := value ]> obj.

(** [keys.reduce((obj, key, index) => { obj[key] = row[index]; return obj }, start)],
    counting the index from [index]. *)
Fixpoint reduceKeys (keys : list string) (row : list string) (index : nat) (obj : RowObject) : RowObject :=
  match keys with
  | [] => obj
  | key :: more => reduceKeys more row (S index) (setProperty obj key (row !! index))
  end.

Section Provider.

Context {Data : Type}.
Context (convertResultStringToVector : string → list (list string)).
Context (convertResultToVector : Data → list (list string)).

(** A query result is a string or it is not ([typeof queryResult]). *)
Inductive QueryResult :=
  | ResultString (text : string)
  | ResultData (data : Data).

(** The value returned and the CSV text of the extension state after the
    call; [resultPanelCSV] is the text before it. *)
Definition convertToGrid (queryResult : QueryResult) (resultPanelCSV : string) : Outcome Converted * string :=
  match queryResult with
  | ResultString EmptyString => (Return (Markup "<p>No results to show</p>"), resultPanelCSV)
  | _ =>
      let vectorRes :=
        match queryResult with
        | ResultString text => convertResultStringToVector text
        | ResultData data => convertResultToVector data
        end in
      if (length vectorRes =? 1)%nat then
        (Return (Markup ("<p>" +:+ joinWith "," (default [] (head vectorRes)) +:+ "</p>")),
         resultPanelCSV)
      else
        let resultPanelCSV := joinWith (String (ascii_of_nat 10) EmptyString) (map (joinWith ",") vectorRes) in
        match head vectorRes with
        | Some keys =>
            let value := drop 1 vectorRes in
            let rowData := map (λ row, reduceKeys keys row 0 ∅) value in
            let columnDefs := keys in
            (Return (Grid
               {| defaultColDef :=
                    {| sortable := true; resizable := true; filter := true;
                       flex := 1; minWidth := 100 |};
                  rowData := rowData;
                  columnDefs := columnDefs |}),
             resultPanelCSV)
        | None => (TypeError, resultPanelCSV)
        end
  end.

End Provider.

(** Converters of a small table, to run the definitions on. *)
Definition sampleStringToVector (text : string) : list (list string) :=
  if String.eqb text "table" then [["sym"; "px"]; ["a"; "1"]; ["b"]]
  else if String.eqb text "none" then []
  else [[text]].

Definition sampleDataToVector (data : list (list string)) : list (list string) := data.

End ResultsPanel.

(** ** Completion items of the extension (extension.ts) *)

Module Extension.

Inductive CompletionItemKind := KindKeyword | KindFunction | KindValue | KindVariable.

Record CompletionItem := {
  label : string;
  insertText : option string;
  kind : CompletionItemKind
}.

(** The lists of names of the extension variables. *)
Record Names := {
  keywords : list string;
  functions : list string;
  tables : list string;
  variables : list string
}.

(** [(x.match(/\./g) || []).length] *)
Fixpoint countDots (x : string) : nat :=
  match x with
  | EmptyString => 0
  | String a rest => (if Ascii.eqb a JS.dot then 1 else 0) + countDots rest
  end.

(** [x.substr(1)] *)
Definition substr1 (x : string) : string :=
  match x with
  | EmptyString => EmptyString
  | String _ rest => rest
  end.

Definition getInsertText (x : string) : string :=
  if (1 <? countDots x)%nat then substr1 x else x.

Definition provideCompletionItems (ext : Names) : list CompletionItem :=
  let items : list CompletionItem := [] in
  let items :=
    foldl (λ items x, items ++ [{| label := x; insertText := None; kind := KindKeyword |}])
      items (keywords ext) in
  let items :=
    foldl (λ items x,
        items ++ [{| label := x; insertText := Some (getInsertText x); kind := KindFunction |}])
      items (functions ext) in
  let items :=
    foldl (λ items x,
        items ++ [{| label := x; insertText := Some (getInsertText x); kind := KindValue |}])
      items (tables ext) in
  let items :=
    foldl (λ items x,
        items ++ [{| label := x; insertText := Some (getInsertText x); kind := KindVariable |}])
      items (variables ext) in
  items.

End Extension.

(** ** Vocabulary of the further statements *)

#[global] Instance Position_eq_dec : EqDecision Position.t.
Proof. solve_decision. Defined.

#[global] Instance Range_eq_dec : EqDecision Range.t.
Proof. solve_decision. Defined.

(** The selection range of a symbol is its range. *)
Definition selectsItsRange (symbol : DocumentSymbol.t) : bool :=
  bool_decide (DocumentSymbol.selectionRange symbol = DocumentSymbol.range symbol).

(** A symbol with an array of children, be it the empty one. *)
Definition hasChildren (symbol : DocumentSymbol.t) : bool :=
  bool_decide (is_Some (DocumentSymbol.children symbol)).

(** A connection is attached to a label when the first entry of the map
    list under that label lists it; an entry that [find] does not reach is
    not looked at. *)
Definition attached (entries : list ConnLabel.ConnectionLabels) (label conn : string) : Prop :=
  match find (λ lbl, String.eqb (ConnLabel.labelName lbl) label) entries with
  | Some entry => conn ∈ ConnLabel.connections entry
  | None => False
  end.

(** A label that [createNewLabel] or the configuration has defined. *)
Definition knownLabel {Color} (ext : ConnLabel.Ext Color) (label : string) : Prop :=
  label ∈ map ConnLabel.name (ConnLabel.connLabelList ext).

(** One entry for each label, and no connection twice in an entry. *)
Definition wellFormedMap (entries : list ConnLabel.ConnectionLabels) : Prop :=
  NoDup (map ConnLabel.labelName entries)
  ∧ Forall (λ entry, NoDup (ConnLabel.connections entry)) entries.

(** The vector of rows that [convertToGrid] works on. *)
Definition vectorOf {Data} (convertResultStringToVector : string → list (list string))
    (convertResultToVector : Data → list (list string))
    (queryResult : ResultsPanel.QueryResult) : list (list string) :=
  match queryResult with
  | ResultsPanel.ResultString text => convertResultStringToVector text
  | ResultsPanel.ResultData data => convertResultToVector data
  end.

(** The workspace configuration once the effects of a call have been
    carried out: a setting that was updated reads as the value given to
    the update, the log leaves the configuration alone. *)
Definition applyEffect {Color} (config : ConnLabel.Configuration Color)
    (effect : ConnLabel.Effect Color) : ConnLabel.Configuration Color :=
  match effect with
  | ConnLabel.OutputLog _ _ => config
  | ConnLabel.UpdateConnectionLabels value =>
      {| ConnLabel.kdb_connectionLabels := Some value;
         ConnLabel.kdb_labelsConnectionMap := ConnLabel.kdb_labelsConnectionMap config |}
  | ConnLabel.UpdateLabelsConnectionMap value =>
      {| ConnLabel.kdb_connectionLabels := ConnLabel.kdb_connectionLabels config;
         ConnLabel.kdb_labelsConnectionMap := Some value |}
  end.

(** ** Names of more than two pieces

    Two tokens to run the rename and the completion on: a name in a nested
    namespace and a name part that begins with a dot. *)

Module Dotted.

Definition arena : list TokenObject :=
  [ Fixture.tok ".a.b.c" Identifier 1 1 6 (Some "a") None;
    Fixture.tok ".ns..x" Identifier 2 1 6 (Some "ns") None ].

Definition heap : Heap := λ t, nth t arena Fixture.blank.

Definition parser : Parser := {|
  parse := λ _, seq 0 (length arena);
  findIdentifiers := ParserSpec.findIdentifiers heap (λ _, None);
  inLambda := ParserSpec.inLambda heap;
  amended := λ _, false;
  identifier := ParserSpec.globalName heap;
  tokenId := λ t, image (heap t);
  assigned := λ _, None;
  lambda := ParserSpec.lambda heap;
  assignable := ParserSpec.assignable heap;
  qualified := ParserSpec.qualified heap
|}.

End Dotted.

(** * Properties *)

(** ** Scenarios of the description, run on the resolver model *)

Example scenarioA_definition :
  ParserSpec.findIdentifiers Fixture.heap Fixture.assignedTo Definition_ (seq 0 26) (Some 12) = [6].
Proof. vm_compute. reflexivity. Qed.

Example scenarioA_completion_outside :
  ParserSpec.findIdentifiers Fixture.heap Fixture.assignedTo Completion (seq 0 26) (Some 17) = [0; 14; 18].
Proof. vm_compute. reflexivity. Qed.

Example scenarioA_completion_inside :
  ParserSpec.findIdentifiers Fixture.heap Fixture.assignedTo Completion (seq 0 26) (Some 12) = [0; 6; 14; 18].
Proof. vm_compute. reflexivity. Qed.

Example scenarioB_reference :
  ParserSpec.findIdentifiers Fixture.heap Fixture.assignedTo Reference (seq 0 26) (Some 17) = [14; 17]
  ∧ ParserSpec.findIdentifiers Fixture.heap Fixture.assignedTo Reference (seq 0 26) (Some 14) = [14; 17].
Proof. vm_compute. split; reflexivity. Qed.

Example scenarioE_rename :
  ParserSpec.findIdentifiers Fixture.heap Fixture.assignedTo Rename (seq 0 26) (Some 12) = [6; 12]
  ∧ ParserSpec.findIdentifiers Fixture.heap Fixture.assignedTo Rename (seq 0 26) (Some 21) = [21].
Proof. vm_compute. split; reflexivity. Qed.

Example scenarioC_rename :
  QLangServer.onRenameRequest (parser := Fixture.parser) Fixture.heap (Fixture.server false) Fixture.uri (Position.create 3 2) "g"
  = Some (WorkspaceEdit.make {[ Fixture.uri := [TextEdit.replace (Range.create 3 0 3 5) ".ns.g"] ]})
  ∧ QLangServer.onRenameRequest (parser := Fixture.parser) Fixture.heap (Fixture.server false) Fixture.uri (Position.create 3 2) ".other.g"
  = Some (WorkspaceEdit.make {[ Fixture.uri := [TextEdit.replace (Range.create 3 0 3 5) ".other.g"] ]}).
Proof. vm_compute. split; reflexivity. Qed.

(** ** Splitting at dots *)


Lemma split_dot (s : string) : JS.split ("." +:+ s) = EmptyString :: JS.split s.
Proof. reflexivity. Qed.

Lemma split_noDot (piece rest : string) :
  JS.noDot piece = true →
  JS.split (piece +:+ "." +:+ rest) = piece :: JS.split rest.
Proof.
  induction piece as [|a piece IH]; simpl; [done|].
  intros [Ha Hp]%andb_true_iff. apply negb_true_iff in Ha.
  rewrite Ha, (IH Hp). reflexivity.
Qed.

Lemma split_noDot_last (piece : string) :
  JS.noDot piece = true → JS.split piece = [piece].
Proof.
  induction piece as [|a piece IH]; simpl; [done|].
  intros [Ha Hp]%andb_true_iff. apply negb_true_iff in Ha.
  rewrite Ha, (IH Hp). reflexivity.
Qed.

Lemma split_head_truthy (s : string) :
  JS.truthy s = true → JS.startsWithDot s = false →
  ∃ piece more, JS.split s = piece :: more ∧ JS.truthy piece = true.
Proof.
  destruct s as [|a s]; simpl; [done|]. intros _ ->.
  destruct (JS.split s) eqn:E; eauto.
Qed.





(** The image dot-ns-dot-name splits into the empty piece, [ns] and the
    first piece of [name]. *)
Lemma splitLimit_qualified (ns name : string) :
  JS.noDot ns = true → JS.truthy name = true → JS.startsWithDot name = false →
  ∃ piece, JS.splitLimit ("." +:+ ns +:+ "." +:+ name) 3 = [EmptyString; ns; piece]
           ∧ JS.truthy piece = true.
Proof.
  intros Hns Hname Hdot.
  destruct (split_head_truthy name Hname Hdot) as (piece & more & Hs & Hp).
  exists piece. split; [|done].
  unfold JS.splitLimit. rewrite split_dot, (split_noDot ns name Hns), Hs.
  reflexivity.
Qed.

(** ** Ranges and positions *)

Section RangeProperties.

Context (heap : Heap) {parser : Parser}.

Lemma orNumber_one (field : option N) : JS.orNumber field 1 = fieldOrOne field.
Proof. by destruct field as [[|p]|]. Qed.

(** C3: the range given to the editor is the 0-based conversion of the
    token's 1-based inclusive range.  With every missing or zero position
    field first replaced by 1, it starts at (startLine - 1, startColumn - 1)
    and ends at (endLine - 1, endColumn). *)
Theorem rangeFromToken_zero_based (token : Token) :
  let obj := heap token in
  rangeFromToken heap token =
    Range.make
      (Position.create (fieldOrOne (startLine obj) - 1) (fieldOrOne (startColumn obj) - 1))
      (Position.create (fieldOrOne (endLine obj) - 1) (fieldOrOne (endColumn obj))).
Proof.
  intros obj. unfold rangeFromToken, Range.create.
  by rewrite !orNumber_one.
Qed.

Lemma covers_spec (token : Token) (position : Position.t) :
  (let r := rangeFromToken heap token in
   (Position.line (Range.start r) <=? Position.line position)%N &&
   (Position.line position <=? Position.line (Range.end_ r))%N &&
   (Position.character (Range.start r) <=? Position.character position)%N &&
   (Position.character position <=? Position.character (Range.end_ r))%N) = true
  ↔ covers heap token position.
Proof.
  unfold covers; cbv zeta.
  rewrite !andb_true_iff, !N.leb_le. tauto.
Qed.

(** A token whose last column lies left of its first column, as a token
    that runs over several lines may, holds no cursor position. *)
Lemma covers_box (token : Token) (position : Position.t) :
  covers heap token position →
  (fieldOrOne (startColumn (heap token)) - 1 ≤ fieldOrOne (endColumn (heap token)))%N
  ∧ (fieldOrOne (startLine (heap token)) ≤ fieldOrOne (endLine (heap token)))%N.
Proof.
  unfold covers, rangeFromToken; simpl. rewrite !orNumber_one.
  assert (∀ f, (1 ≤ fieldOrOne f)%N) as Hpos by (by intros [[|p]|]; simpl; lia).
  pose proof (Hpos (startLine (heap token))). pose proof (Hpos (endLine (heap token))).
  lia.
Qed.

(** With all four fields present and positive, nothing is defaulted. *)
Lemma rangeFromToken_present (token : Token) (l1 c1 l2 c2 : N) :
  startLine (heap token) = Some l1 → startColumn (heap token) = Some c1 →
  endLine (heap token) = Some l2 → endColumn (heap token) = Some c2 →
  (0 < l1)%N → (0 < c1)%N → (0 < l2)%N → (0 < c2)%N →
  rangeFromToken heap token = Range.create (l1 - 1) (c1 - 1) (l2 - 1) c2.
Proof.
  intros H1 H2 H3 H4 ? ? ? ?. unfold rangeFromToken. rewrite H1, H2, H3, H4.
  by destruct l1, c1, l2, c2; try lia.
Qed.

Lemma positionToToken_cons (token : Token) (tokens : list Token) (position : Position.t) :
  (covers heap token position ∧ positionToToken heap (token :: tokens) position = Some token)
  ∨ (¬ covers heap token position
     ∧ positionToToken heap (token :: tokens) position = positionToToken heap tokens position).
Proof.
  pose proof (covers_spec token position) as Hs. cbv zeta in Hs.
  unfold positionToToken; cbn [find]; cbv beta zeta.
  match type of Hs with ?b = true ↔ _ => destruct b end.
  - left. split; [by apply Hs | done].
  - right. split; [|done]. intros Hc%Hs. discriminate.
Qed.

(** C9: [positionToToken] returns the first token, in the order of the
    sequence, whose 0-based range holds the cursor line between its lines
    and, separately, the cursor character between its characters; it
    returns nothing exactly when no token does, as on the empty sequence. *)
Theorem positionToToken_first (tokens : list Token) (position : Position.t) :
  (∀ token,
     positionToToken heap tokens position = Some token ↔
     ∃ before after,
       tokens = before ++ token :: after ∧
       covers heap token position ∧
       ∀ other, other ∈ before → ¬ covers heap other position)
  ∧ (positionToToken heap tokens position = None ↔
     ∀ other, other ∈ tokens → ¬ covers heap other position)
  ∧ positionToToken heap [] position = None.
Proof.
  split; [|split; [|done]].
  - induction tokens as [|t tokens IH]; intros token.
    + split; [done|]. intros (before & after & E & _). by destruct before.
    + destruct (positionToToken_cons t tokens position) as [[Hc ->]|[Hn ->]].
      * split.
        -- intros [= <-]. exists [], tokens. split; [done|]. split; [done|].
           intros other Hin. by apply elem_of_nil in Hin.
        -- intros (before & after & E & Hcov & Hnone).
           destruct before as [|b before]; simplify_eq/=; [done|].
           exfalso. apply (Hnone b); [apply list_elem_of_here | done].
      * rewrite IH. split.
        -- intros (before & after & -> & Hcov & Hnone).
           exists (t :: before), after. split; [done|]. split; [done|].
           intros other [->|Hin]%elem_of_cons; auto.
        -- intros (before & after & E & Hcov & Hnone).
           destruct before as [|b before]; simplify_eq/=; [done|].
           exists before, after. split; [done|]. split; [done|].
           intros other Hin. apply Hnone. by apply list_elem_of_further.
  - induction tokens as [|t tokens IH].
    + split; [|done]. intros _ other Hin. by apply elem_of_nil in Hin.
    + destruct (positionToToken_cons t tokens position) as [[Hc ->]|[Hn ->]].
      * split; [done|]. intros Hall. exfalso. apply (Hall t); [apply list_elem_of_here | done].
      * rewrite IH. split.
        -- intros Hall other [->|Hin]%elem_of_cons; auto.
        -- intros Hall other Hin. apply Hall. by apply list_elem_of_further.
Qed.

End RangeProperties.

(** ** Completion items and rename edits *)

Section ItemProperties.

Context (heap : Heap) {parser : Parser}.

Lemma truthy_nonempty (s : string) : JS.truthy s = true ↔ s ≠ EmptyString.
Proof. by destruct s. Qed.

Lemma take3_inv {A} (l : list A) (a b c : A) :
  take 3 l = [a; b; c] → ∃ more, l = a :: b :: c :: more.
Proof.
  destruct l as [|x [|y [|z more]]]; simpl; try done.
  intros [= -> -> ->]. eauto.
Qed.

(** C7: the kind of a completion item is Function exactly when the value
    assigned to the token is a function literal, that is when
    [lambda (assigned token)] holds, and Variable otherwise. *)
Theorem createCompletionItem_kind (token : Token) (source : option Token) :
  (CompletionItem.kind (createCompletionItem heap token source) = CompletionFunction
     ↔ lambda (assigned token) = true)
  ∧ (CompletionItem.kind (createCompletionItem heap token source) = CompletionVariable
     ↔ lambda (assigned token) = false).
Proof.
  unfold createCompletionItem; simpl.
  destruct (lambda (assigned token)); split; split; congruence.
Qed.


(** C1, as amended: for a replacement name that does not start with a dot,
    the edit of a qualified token whose image reads dot-ns-dot-name, where
    ns is the first piece of the image (it holds no dot) and the name part
    is not empty and does not begin with a dot, replaces the token's range
    by dot-ns-dot-newName, keeping that namespace; for a replacement that
    starts with a dot, the edit replaces the range by the replacement as
    it is. *)
Theorem createTextEdit_rename (token : Token) (newName : string) :
  (JS.startsWithDot newName = false →
   ∀ ns name,
     qualified token = true →
     image (heap token) = "." +:+ ns +:+ "." +:+ name →
     JS.noDot ns = true → JS.truthy name = true → JS.startsWithDot name = false →
     createTextEdit heap token newName
     = TextEdit.replace (rangeFromToken heap token) ("." +:+ ns +:+ "." +:+ newName))
  ∧ (JS.startsWithDot newName = true →
     createTextEdit heap token newName
     = TextEdit.replace (rangeFromToken heap token) newName).
Proof.
  split.
  - intros Hnew ns name Hq Himage Hns Hname Hdot.
    destruct (splitLimit_qualified ns name Hns Hname Hdot) as (piece & Hsplit & Hpiece).
    unfold createTextEdit. rewrite Hnew, Hq, Himage, Hsplit, Hpiece. reflexivity.
  - intros Hnew. unfold createTextEdit. rewrite Hnew. reflexivity.
Qed.

End ItemProperties.

(** The rename of the qualified name of the sample document, by a bare
    name and by a qualified one. *)
Lemma createTextEdit_rename_witness :
  createTextEdit (parser := Fixture.parser) Fixture.heap 18 "g"
  = TextEdit.replace (rangeFromToken Fixture.heap 18) ("." +:+ "ns" +:+ "." +:+ "g")
  ∧ createTextEdit (parser := Fixture.parser) Fixture.heap 18 ".other.g"
    = TextEdit.replace (rangeFromToken Fixture.heap 18) ".other.g".
Proof.
  split.
  - apply (proj1 (createTextEdit_rename Fixture.heap (parser := Fixture.parser) 18 "g")
             eq_refl "ns" "f"); reflexivity.
  - apply (proj2 (createTextEdit_rename Fixture.heap (parser := Fixture.parser) 18 ".other.g")).
    reflexivity.
Defined.

(** C1 as it was worded fails twice.  Read with the namespace a.b, the
    nested name is renamed under its first piece a only; and a name part
    that begins with a dot is replaced by the bare new name. *)
Lemma createTextEdit_rename_counterexample :
  (qualified (Parser := Dotted.parser) 0 = true
   ∧ image (Dotted.heap 0) = "." +:+ "a.b" +:+ "." +:+ "c"
   ∧ "c" ≠ EmptyString
   ∧ JS.startsWithDot "g" = false
   ∧ createTextEdit (parser := Dotted.parser) Dotted.heap 0 "g"
     = TextEdit.replace (rangeFromToken Dotted.heap 0) ".a.g"
   ∧ createTextEdit (parser := Dotted.parser) Dotted.heap 0 "g"
     ≠ TextEdit.replace (rangeFromToken Dotted.heap 0) ("." +:+ "a.b" +:+ "." +:+ "g"))
  ∧ (qualified (Parser := Dotted.parser) 1 = true
     ∧ image (Dotted.heap 1) = "." +:+ "ns" +:+ "." +:+ ".x"
     ∧ ".x" ≠ EmptyString
     ∧ createTextEdit (parser := Dotted.parser) Dotted.heap 1 "g"
       = TextEdit.replace (rangeFromToken Dotted.heap 1) "g"
     ∧ createTextEdit (parser := Dotted.parser) Dotted.heap 1 "g"
       ≠ TextEdit.replace (rangeFromToken Dotted.heap 1) ("." +:+ "ns" +:+ "." +:+ "g")).
Proof. repeat split; (reflexivity || discriminate). Qed.



(** ** Rename requests and the outline *)

Section HandlerProperties.

Context (heap : Heap) {parser : Parser}.

(** C4: a miss is an empty collection.  For a document that is not open
    [QLangServer.parse] returns no token; [onRenameRequest] answers null
    exactly when [findIdentifiers] finds no token for the rename, and
    otherwise a workspace edit that holds, under the uri of the document
    and under no other, one text edit for each token found, in order. *)
Theorem onRenameRequest_miss (this : QLangServer.t) (uri : string)
    (position : Position.t) (newName : string) :
  let tokens := QLangServer.parse this uri in
  let found := findIdentifiers Rename tokens (positionToToken heap tokens position) in
  (QLangServer.documents this !! uri = None → tokens = [])
  ∧ (QLangServer.onRenameRequest heap this uri position newName = None ↔ found = [])
  ∧ (found ≠ [] →
     ∃ edits,
       QLangServer.onRenameRequest heap this uri position newName
       = Some (WorkspaceEdit.make {[ uri := edits ]})
       ∧ length edits = length found
       ∧ Forall2 (λ token edit, edit = createTextEdit heap token newName) found edits).
Proof.
  intros tokens found. split; [|split].
  - intros Hdoc. unfold tokens, QLangServer.parse. by rewrite Hdoc.
  - unfold QLangServer.onRenameRequest. fold tokens. fold found.
    rewrite length_map. destruct found; simpl; split; done.
  - intros Hfound.
    exists (map (λ token, createTextEdit heap token newName) found).
    split; [|split].
    + unfold QLangServer.onRenameRequest. fold tokens. fold found.
      rewrite length_map. by destruct found.
    + apply length_map.
    + clear Hfound. induction found; constructor; done.
Qed.

Lemma wellNested_child (rank : Token → nat) (tokens : list Token) (token child : Token) :
  wellNested rank tokens = true →
  token ∈ tokens → child ∈ tokens →
  is_Some (assigned token) → is_Some (assigned child) →
  assignable child = true → inLambda child = assigned token →
  rank child < rank token.
Proof.
  unfold wellNested. rewrite forallb_forall.
  intros Hall Ht%list_elem_of_In Hc%list_elem_of_In Hat Hac Hable Hin.
  specialize (Hall token Ht). rewrite forallb_forall in Hall.
  specialize (Hall child Hc).
  rewrite !bool_decide_eq_true_2, Hable in Hall by done.
  simpl in Hall. by apply Nat.ltb_lt.
Qed.

(** With fuel above the rank of an assigned name, [createSymbol] returns
    its symbol. *)
Lemma createSymbol_returns (rank : Token → nat) (tokens : list Token) :
  wellNested rank tokens = true →
  ∀ fuel token,
    token ∈ tokens → is_Some (assigned token) → rank token < fuel →
    ∃ symbol,
      createSymbol heap fuel token tokens = Some symbol
      ∧ DocumentSymbol.name symbol = JS.trim (identifier token)
      ∧ DocumentSymbol.range symbol = rangeFromToken heap token.
Proof.
  intros Hnested fuel. induction fuel as [|fuel IH]; intros token Hin Hassigned Hrank; [lia|].
  cbn [createSymbol].
  match goal with |- context [mapM ?f ?l] => assert (is_Some (mapM f l)) as [children ->] end.
  { apply mapM_is_Some, Forall_forall. intros child Hchild%list_elem_of_In.
    apply filter_In in Hchild as [Hc Hcond].
    rewrite !andb_true_iff in Hcond. destruct Hcond as [[Ha Hable] Hscope].
    apply bool_decide_eq_true_1 in Ha, Hscope. apply list_elem_of_In in Hc.
    pose proof (wellNested_child rank tokens token child Hnested Hin Hc Hassigned Ha Hable Hscope).
    destruct (IH child Hc Ha) as (symbol & Hs & _); [lia|].
    unfold compose. rewrite Hs. by eexists. }
  simpl. eexists. split; [done|]. by split.
Qed.

(** C10: without debug mode [onDocumentSymbol] returns the symbols of the
    tokens that are assignable, assigned and in no lambda, one for each and
    in the order of the token sequence; in debug mode it returns one debug
    symbol for each token of the parse, in the same order. *)
Theorem onDocumentSymbol_outline (this : QLangServer.t) (uri : string) :
  let tokens := QLangServer.parse this uri in
  (debug (QLangServer.settings this) = true →
   ∀ fuel,
     QLangServer.onDocumentSymbol heap fuel this uri
     = Some (map (createDebugSymbol heap) tokens))
  ∧ (debug (QLangServer.settings this) = false →
     ∀ rank fuel,
       wellNested rank tokens = true →
       forallb (λ token, rank token <? fuel)%nat tokens = true →
       ∃ symbols,
         QLangServer.onDocumentSymbol heap fuel this uri = Some symbols
         ∧ Forall2 (λ token symbol,
             createSymbol heap fuel token tokens = Some symbol
             ∧ DocumentSymbol.name symbol = JS.trim (identifier token)
             ∧ DocumentSymbol.range symbol = rangeFromToken heap token)
           (List.filter topLevel tokens) symbols).
Proof.
  intros tokens. split.
  - intros Hdebug fuel. unfold QLangServer.onDocumentSymbol. by rewrite Hdebug.
  - intros Hdebug rank fuel Hnested Hfuel.
    unfold QLangServer.onDocumentSymbol. rewrite Hdebug. fold tokens.
    change (List.filter _ tokens) with (List.filter topLevel tokens).
    rewrite forallb_forall in Hfuel.
    assert (Forall (λ token, token ∈ tokens ∧ is_Some (assigned token))
              (List.filter topLevel tokens)) as Htop.
    { apply Forall_forall. intros token Hin%list_elem_of_In.
      apply filter_In in Hin as [Hin Hcond]. unfold topLevel in Hcond.
      rewrite !andb_true_iff in Hcond. destruct Hcond as [[_ Ha] _].
      apply bool_decide_eq_true_1 in Ha. by apply list_elem_of_In in Hin. }
    induction Htop as [|token rest [Hin Ha] _ IH].
    + exists []. split; [done|]. constructor.
    + destruct IH as (symbols & Hsymbols & Hall).
      destruct (createSymbol_returns rank tokens Hnested fuel token Hin Ha)
        as (symbol & Hsymbol & Hname & Hrange).
      { apply Nat.ltb_lt, Hfuel. by apply list_elem_of_In. }
      exists (symbol :: symbols). split.
      * rewrite mapM_Some. constructor; [done|]. by apply mapM_Some.
      * by constructor.
Qed.

End HandlerProperties.

(** A rename on a document that is not open, and the rename of the
    qualified name of the sample document. *)
Lemma onRenameRequest_miss_witness :
  QLangServer.parse (parser := Fixture.parser) (Fixture.server false) "file:///b.q" = []
  ∧ ∃ edits,
      QLangServer.onRenameRequest (parser := Fixture.parser) Fixture.heap (Fixture.server false)
        Fixture.uri (Position.create 3 2) "g"
      = Some (WorkspaceEdit.make {[ Fixture.uri := edits ]})
      ∧ length edits = 1.
Proof.
  split.
  - apply (proj1 (onRenameRequest_miss Fixture.heap (parser := Fixture.parser)
                    (Fixture.server false) "file:///b.q" (Position.create 0 0) "g")).
    vm_compute. reflexivity.
  - destruct (proj2 (proj2 (onRenameRequest_miss Fixture.heap (parser := Fixture.parser)
                      (Fixture.server false) Fixture.uri (Position.create 3 2) "g")))
      as (edits & Hedit & Hlen & _).
    + vm_compute. discriminate.
    + exists edits. split; [exact Hedit|]. exact Hlen.
Defined.

(** The outline of the sample document, in debug mode and out of it. *)
Lemma onDocumentSymbol_outline_witness :
  QLangServer.onDocumentSymbol (parser := Fixture.parser) Fixture.heap 0 (Fixture.server true) Fixture.uri
  = Some (map (createDebugSymbol (parser := Fixture.parser) Fixture.heap) (seq 0 26))
  ∧ ∃ symbols,
      QLangServer.onDocumentSymbol (parser := Fixture.parser) Fixture.heap 2 (Fixture.server false) Fixture.uri
      = Some symbols
      ∧ map DocumentSymbol.name symbols = ["f"; "b"; ".ns.f"].
Proof.
  split.
  - apply (proj1 (onDocumentSymbol_outline Fixture.heap (parser := Fixture.parser)
                    (Fixture.server true) Fixture.uri) eq_refl 0).
  - destruct (proj2 (onDocumentSymbol_outline Fixture.heap (parser := Fixture.parser)
                      (Fixture.server false) Fixture.uri) eq_refl Fixture.rank 2)
      as (symbols & Hsymbols & _).
    + vm_compute. reflexivity.
    + vm_compute. reflexivity.
    + exists symbols. split; [exact Hsymbols|].
      vm_compute in Hsymbols. injection Hsymbols as <-. vm_compute. reflexivity.
Defined.

(** ** The resolver model *)

Section ResolverProperties.

Context (heap : Heap) (assigned : Token → option Token).

Abbreviation localBinding := (ParserSpec.localBinding heap assigned).
Abbreviation resolve := (ParserSpec.resolve heap assigned).
Abbreviation findIdentifiers := (ParserSpec.findIdentifiers heap assigned).


Lemma matches_spec (token source : Token) :
  ParserSpec.matches heap token source = true ↔
  image (heap token) = image (heap source) ∧ namespace (heap token) = namespace (heap source).
Proof.
  unfold ParserSpec.matches. by rewrite andb_true_iff, !bool_decide_eq_true.
Qed.

Lemma localBinding_spec (body source token : Token) :
  localBinding body source token = true ↔
  ParserSpec.isAssignment heap assigned token = true ∧
  ParserSpec.qualified heap token = false ∧
  scope (heap token) = Some body ∧
  image (heap token) = image (heap source) ∧
  namespace (heap token) = namespace (heap source).
Proof.
  unfold ParserSpec.localBinding.
  rewrite !andb_true_iff, negb_true_iff, bool_decide_eq_true, matches_spec. tauto.
Qed.



(** A qualified name resolves at the namespace level, whatever lambda it
    is written in. *)
Lemma resolve_qualified (tokens : list Token) (token : Token) :
  ParserSpec.qualified heap token = true →
  resolve tokens token = ParserSpec.Global (image (heap token)).
Proof.
  intros Hq. unfold ParserSpec.resolve, ParserSpec.globalName. rewrite Hq.
  destruct (scope (heap token)) as [body|]; [|done].
  destruct (existsb (localBinding body token) tokens) eqn:E; [|done].
  apply existsb_exists in E as (other & _ & Hl).
  apply localBinding_spec in Hl as (_ & Hnq & _ & Himage & _).
  unfold ParserSpec.qualified in *. rewrite Himage in Hnq. congruence.
Qed.


(** C5: for a source token that is not assignable (a keyword, a literal, an
    operator), and for no source token at all, [findIdentifiers] returns the
    empty collection, whatever the kind of the request. *)
Theorem findIdentifiers_not_assignable (kind : FindKind) (tokens : list Token) :
  findIdentifiers kind tokens None = []
  ∧ ∀ source,
      ParserSpec.assignable heap source = false →
      findIdentifiers kind tokens (Some source) = [].
Proof.
  split; [done|]. intros source Hsource.
  unfold ParserSpec.findIdentifiers. by rewrite Hsource.
Qed.


End ResolverProperties.

(** The keyword of the sample document, for each kind of request. *)
Lemma findIdentifiers_not_assignable_witness :
  ParserSpec.findIdentifiers Fixture.heap Fixture.assignedTo Definition_ (seq 0 26) (Some 25) = []
  ∧ ParserSpec.findIdentifiers Fixture.heap Fixture.assignedTo Reference (seq 0 26) (Some 25) = []
  ∧ ParserSpec.findIdentifiers Fixture.heap Fixture.assignedTo Rename (seq 0 26) (Some 16) = []
  ∧ ParserSpec.findIdentifiers Fixture.heap Fixture.assignedTo Completion (seq 0 26) (Some 16) = [].
Proof.
  split; [|split; [|split]].
  - apply (proj2 (findIdentifiers_not_assignable Fixture.heap Fixture.assignedTo Definition_ (seq 0 26)) 25).
    reflexivity.
  - apply (proj2 (findIdentifiers_not_assignable Fixture.heap Fixture.assignedTo Reference (seq 0 26)) 25).
    reflexivity.
  - apply (proj2 (findIdentifiers_not_assignable Fixture.heap Fixture.assignedTo Rename (seq 0 26)) 16).
    reflexivity.
  - apply (proj2 (findIdentifiers_not_assignable Fixture.heap Fixture.assignedTo Completion (seq 0 26)) 16).
    reflexivity.
Defined.


(** * Further properties of the handlers *)

Section FurtherHandlerProperties.

Context (heap : Heap) {parser : Parser}.

(** X1: a rename never rewrites the new name in any other way: the text of the
    edit is the new name as given, unless the new name has no leading dot,
    the token is qualified and the third dot-separated piece of its image
    is not empty; then it is the new name under the second piece.  The
    range of the edit is always the range of the token. *)
Theorem createTextEdit_verbatim_unless (token : Token) (newName : string) :
  TextEdit.range (createTextEdit heap token newName) = rangeFromToken heap token
  ∧ (TextEdit.newText (createTextEdit heap token newName) = newName
     ∨ (JS.startsWithDot newName = false
        ∧ qualified token = true
        ∧ ∃ first ns piece more,
            JS.split (image (heap token)) = first :: ns :: piece :: more
            ∧ piece ≠ EmptyString
            ∧ TextEdit.newText (createTextEdit heap token newName)
              = "." +:+ ns +:+ "." +:+ newName)).
Proof.
  split; [done|]. unfold createTextEdit.
  destruct (JS.startsWithDot newName) eqn:Hnew; [by left|].
  destruct (qualified token) eqn:Hq; [|by left]. cbn [negb TextEdit.newText].
  destruct (JS.splitLimit (image (heap token)) 3)
    as [|first [|ns [|piece [|]]]] eqn:Hsplit; try by left.
  destruct (JS.truthy piece) eqn:Hpiece; [|by left].
  right. split; [done|]. split; [done|].
  destruct (take3_inv _ _ _ _ Hsplit) as [more Hmore].
  exists first, ns, piece, more. split; [done|]. split; [|done].
  by apply truthy_nonempty.
Qed.

(** X2: a token written on one line holds the cursor exactly on that line,
    from the character before its first column up to and including the
    character after its last one. *)
Theorem covers_single_line (token : Token) (l c1 c2 : N) (position : Position.t) :
  startLine (heap token) = Some l → endLine (heap token) = Some l →
  startColumn (heap token) = Some c1 → endColumn (heap token) = Some c2 →
  (0 < l)%N → (0 < c1)%N → (0 < c2)%N →
  covers heap token position
  ↔ Position.line position = (l - 1)%N
    ∧ (c1 - 1 ≤ Position.character position ≤ c2)%N.
Proof.
  intros H1 H2 H3 H4 Hl Hc1 Hc2.
  unfold covers.
  rewrite (rangeFromToken_present heap token l c1 l c2) by done.
  simpl. lia.
Qed.

Lemma positionToToken_first_covering (before after : list Token) (token : Token)
    (position : Position.t) :
  covers heap token position →
  (∀ other, other ∈ before → ¬ covers heap other position) →
  positionToToken heap (before ++ token :: after) position = Some token.
Proof.
  intros Hcov. induction before as [|b before IH]; intros Hnone; cbn [app].
  - by destruct (positionToToken_cons heap token after position) as [[_ ->]|[? _]].
  - destruct (positionToToken_cons heap b (before ++ token :: after) position)
      as [[Hb _]|[_ ->]].
    + exfalso. apply (Hnone b); [apply list_elem_of_here | done].
    + apply IH. intros other Hin. apply Hnone. by apply list_elem_of_further.
Qed.

(** X3: between two tokens that touch on one line the cursor belongs to both
    ranges, and the lookup gives the one that stands first in the
    sequence. *)
Theorem positionToToken_boundary (before after : list Token) (first second : Token)
    (l c1 c2 c3 : N) :
  second ∈ after →
  startLine (heap first) = Some l → endLine (heap first) = Some l →
  startColumn (heap first) = Some c1 → endColumn (heap first) = Some c2 →
  startLine (heap second) = Some l → endLine (heap second) = Some l →
  startColumn (heap second) = Some (c2 + 1)%N → endColumn (heap second) = Some c3 →
  (0 < l)%N → (0 < c1 ≤ c2)%N → (c2 < c3)%N →
  (∀ other, other ∈ before → ¬ covers heap other (Position.create (l - 1) c2)) →
  covers heap second (Position.create (l - 1) c2)
  ∧ positionToToken heap (before ++ first :: after) (Position.create (l - 1) c2) = Some first.
Proof.
  intros _ F1 F2 F3 F4 S1 S2 S3 S4 Hl Hc Hc3 Hnone. split.
  - unfold covers. rewrite (rangeFromToken_present heap second l (c2 + 1) l c3) by (done || lia).
    simpl. lia.
  - apply positionToToken_first_covering; [|done].
    unfold covers. rewrite (rangeFromToken_present heap first l c1 l c2) by (done || lia).
    simpl. lia.
Qed.

(** X4: a token whose start does not lie behind its end, with the defaults of
    the position mapping, gets a range that runs forward and is not empty:
    the start of the range is strictly before its end. *)
Theorem rangeFromToken_forward (token : Token) :
  let sl := fieldOrOne (startLine (heap token)) in
  let sc := fieldOrOne (startColumn (heap token)) in
  let el := fieldOrOne (endLine (heap token)) in
  let ec := fieldOrOne (endColumn (heap token)) in
  (sl < el ∨ (sl = el ∧ sc ≤ ec))%N →
  positionBefore (Range.start (rangeFromToken heap token))
                 (Range.end_ (rangeFromToken heap token)).
Proof.
  intros sl sc el ec Horder. subst sl sc el ec.
  unfold positionBefore, rangeFromToken; simpl. rewrite !orNumber_one.
  assert (∀ f, (1 ≤ fieldOrOne f)%N) as Hpos by (by intros [[|p]|]; simpl; lia).
  pose proof (Hpos (startLine (heap token))). pose proof (Hpos (endLine (heap token))).
  pose proof (Hpos (startColumn (heap token))). pose proof (Hpos (endColumn (heap token))).
  lia.
Qed.

Lemma createSymbol_well_formed (tokens : list Token) (fuel : nat) :
  ∀ token symbol,
    createSymbol heap fuel token tokens = Some symbol →
    everySymbol (λ s, selectsItsRange s && hasChildren s) symbol = true.
Proof.
  induction fuel as [|fuel IH]; intros token symbol; [done|].
  cbn [createSymbol].
  match goal with |- context [mapM ?f ?l] => destruct (mapM f l) as [children|] eqn:Hmap end;
    [|done].
  simpl. intros [= <-]. cbn [everySymbol].
  apply andb_true_iff. split.
  - unfold selectsItsRange, hasChildren; simpl.
    rewrite !bool_decide_eq_true_2; done.
  - apply mapM_Some in Hmap. apply forallb_forall. intros child Hin.
    apply list_elem_of_In, list_elem_of_lookup in Hin as [i Hi].
    destruct (Forall2_lookup_r _ _ _ _ _ Hmap Hi) as (t & _ & Hchild).
    by eapply IH.
Qed.

(** X5: every symbol of an outline has its range as its selection range.  Out
    of debug mode that holds at every depth of the tree, and every symbol
    carries an array of children; a debug symbol is a variable without
    children. *)
Theorem onDocumentSymbol_well_formed (fuel : nat) (this : QLangServer.t) (uri : string)
    (symbols : list DocumentSymbol.t) :
  QLangServer.onDocumentSymbol heap fuel this uri = Some symbols →
  if debug (QLangServer.settings this)
  then Forall (λ symbol,
         selectsItsRange symbol = true
         ∧ DocumentSymbol.children symbol = None
         ∧ DocumentSymbol.kind symbol = SymbolVariable) symbols
  else Forall (λ symbol,
         everySymbol (λ s, selectsItsRange s && hasChildren s) symbol = true) symbols.
Proof.
  unfold QLangServer.onDocumentSymbol.
  destruct (debug (QLangServer.settings this)).
  - intros [= <-]. apply Forall_forall. intros symbol Hin.
    apply list_elem_of_fmap in Hin as (token & -> & _).
    unfold selectsItsRange, createDebugSymbol; simpl.
    by rewrite bool_decide_eq_true_2.
  - intros Hmap%mapM_Some. apply Forall_forall. intros symbol Hin.
    apply list_elem_of_lookup in Hin as [i Hi].
    destruct (Forall2_lookup_r _ _ _ _ _ Hmap Hi) as (token & _ & Hsymbol).
    by eapply createSymbol_well_formed.
Qed.

End FurtherHandlerProperties.

(** ** Configuration changes *)

Lemma strictlyTrue_spec (v : option Json) :
  JsonValue.strictlyTrue v = true ↔ v = Some (JBool true).
Proof. destruct v as [[| [|] | | | |]|]; simpl; split; congruence. Qed.

Lemma property_flag (kdb : Json) (key : string) :
  kdb ≠ JNull →
  ∃ v, JsonValue.property kdb key = Some v
       ∧ (v = Some (JBool true)
          ↔ ∃ flags, kdb = JObject flags ∧ JsonValue.member key flags = Some (JBool true)).
Proof.
  intros Hnull. destruct kdb; try done; simpl; eexists; (split; [done|]).
  all: try (split; [done | by intros (flags & ? & _)]).
  split; [by eauto | by intros (flags & [= <-] & ?)].
Qed.

(** X6: a configuration change with a "kdb" member that is not null replaces
    both flags: each one is on exactly when "kdb" is an object whose member
    of that name is the boolean true.  A flag that the change leaves out,
    or gives as any other value, is off afterwards, whatever it was before;
    the open documents are kept. *)
Theorem onDidChangeConfiguration_flags (this : QLangServer.t)
    (members : list (string * Json)) (kdb : Json) :
  JsonValue.member "kdb" members = Some kdb →
  kdb ≠ JNull →
  ∃ this',
    QLangServerSettings.onDidChangeConfiguration this (JObject members) = Some this'
    ∧ QLangServer.documents this' = QLangServer.documents this
    ∧ (debug (QLangServer.settings this') = true
       ↔ ∃ flags, kdb = JObject flags
                  ∧ JsonValue.member "debug_parser" flags = Some (JBool true))
    ∧ (linting (QLangServer.settings this') = true
       ↔ ∃ flags, kdb = JObject flags
                  ∧ JsonValue.member "linting" flags = Some (JBool true)).
Proof.
  intros Hkdb Hnull.
  destruct (property_flag kdb "debug_parser" Hnull) as (d & Hd & Hdebug).
  destruct (property_flag kdb "linting" Hnull) as (l & Hl & Hlinting).
  unfold QLangServerSettings.onDidChangeConfiguration; simpl.
  rewrite Hkdb. rewrite bool_decide_eq_true_2 by done. simpl.
  rewrite Hd, Hl. simpl. eexists. split; [done|]. split; [done|]. simpl.
  by rewrite !strictlyTrue_spec.
Qed.

(** X7: a configuration change without a "kdb" member leaves the settings as
    they are; the handler throws exactly when the settings are a primitive
    value or their "kdb" member is null. *)
Theorem onDidChangeConfiguration_other (this : QLangServer.t) (settings : Json) :
  ((∃ items, settings = JArray items)
   ∨ (∃ members, settings = JObject members ∧ JsonValue.member "kdb" members = None) →
   QLangServerSettings.onDidChangeConfiguration this settings = Some this)
  ∧ (QLangServerSettings.onDidChangeConfiguration this settings = None
     ↔ (∀ items, settings ≠ JArray items)
       ∧ (∀ members, settings = JObject members →
                     JsonValue.member "kdb" members = Some JNull)).
Proof.
  unfold QLangServerSettings.onDidChangeConfiguration. split.
  - intros [[items ->]|(members & -> & Hnone)]; simpl; [done|].
    rewrite Hnone. by rewrite bool_decide_eq_false_2 by (by intros [? ?]).
  - destruct settings as [| | | | items | members]; simpl;
      try (split; [by intros _; split; intros | done]).
    + split; [done|]. intros [Harr _]. by destruct (Harr items).
    + destruct (JsonValue.member "kdb" members) as [kdb|] eqn:Hkdb.
      * rewrite bool_decide_eq_true_2 by done. simpl.
        assert (kdb = JNull ∨ kdb ≠ JNull) as [->|Hnull]
          by (destruct kdb; (by left) || (by right)).
        -- simpl. split; [|done]. intros _. split; [done|]. by intros ? [= <-].
        -- destruct (property_flag kdb "debug_parser" Hnull) as (d & Hd & _).
           destruct (property_flag kdb "linting" Hnull) as (l & Hl & _).
           rewrite Hd, Hl. simpl. split; [done|]. intros [_ Hall].
           specialize (Hall members eq_refl). congruence.
      * rewrite bool_decide_eq_false_2 by (by intros [? ?]). simpl.
        split; [done|]. intros [_ Hall]. specialize (Hall members eq_refl). congruence.
Qed.

(** * Connection labels *)

#[local] Set Warnings "-clear-no-such-hyp".

Section ConnLabelProperties.

Context {Color : Type} (colorName : Color → string).

Implicit Types (ext : ConnLabel.Ext Color) (entries : list ConnLabel.ConnectionLabels).

Lemma foldl_push {A} (array more : list A) :
  foldl ConnLabel.push array more = array ++ more.
Proof.
  revert array. induction more as [|x more IH]; intros array; simpl.
  - by rewrite app_nil_r.
  - rewrite IH. unfold ConnLabel.push. by rewrite <- app_assoc.
Qed.

Lemma includes_spec (connections : list string) (connName : string) :
  ConnLabel.includes connections connName = true ↔ connName ∈ connections.
Proof.
  unfold ConnLabel.includes. rewrite existsb_exists. split.
  - intros (c & Hin & ->%String.eqb_eq). by apply list_elem_of_In.
  - intros Hin. exists connName. split; [by apply list_elem_of_In | apply String.eqb_refl].
Qed.

Lemma attached_cons (entry : ConnLabel.ConnectionLabels) entries (label conn : string) :
  attached (entry :: entries) label conn
  ↔ if String.eqb (ConnLabel.labelName entry) label
    then conn ∈ ConnLabel.connections entry
    else attached entries label conn.
Proof. unfold attached; simpl. by destruct (String.eqb _ _). Qed.

Lemma find_label_none entries (label : string) :
  find (λ lbl, String.eqb (ConnLabel.labelName lbl) label) entries = None
  ↔ label ∉ map ConnLabel.labelName entries.
Proof.
  induction entries as [|e entries IH]; simpl.
  - split; [|done]. intros _ Hin. by apply elem_of_nil in Hin.
  - destruct (String.eqb (ConnLabel.labelName e) label) eqn:E.
    + apply String.eqb_eq in E. split; [done|]. intros Hn. exfalso. apply Hn.
      rewrite E. apply list_elem_of_here.
    + apply String.eqb_neq in E. rewrite IH. rewrite not_elem_of_cons. naive_solver.
Qed.

Lemma find_name_known ext (label : string) :
  is_Some (find (λ lbl, String.eqb (ConnLabel.name lbl) label) (ConnLabel.connLabelList ext))
  ↔ knownLabel ext label.
Proof.
  unfold knownLabel. induction (ConnLabel.connLabelList ext) as [|l labels IH]; simpl.
  - split; [by intros [? ?] | by intros ?%elem_of_nil].
  - destruct (String.eqb (ConnLabel.name l) label) eqn:E.
    + apply String.eqb_eq in E. rewrite E. split; [intros _; apply list_elem_of_here | by eauto].
    + apply String.eqb_neq in E. rewrite IH, elem_of_cons. naive_solver.
Qed.

Lemma attached_push_fresh entries (labelName connName label conn : string) :
  labelName ∉ map ConnLabel.labelName entries →
  attached (ConnLabel.push entries
              {| ConnLabel.labelName := labelName; ConnLabel.connections := [connName] |})
           label conn
  ↔ attached entries label conn ∨ (label = labelName ∧ conn = connName).
Proof.
  unfold ConnLabel.push. induction entries as [|e entries IH]; intros Hfresh.
  - cbn [app]. rewrite attached_cons. simpl.
    destruct (String.eqb labelName label) eqn:E.
    + apply String.eqb_eq in E. rewrite list_elem_of_singleton. unfold attached; simpl.
      naive_solver.
    + apply String.eqb_neq in E. unfold attached; simpl. naive_solver.
  - cbn [map] in Hfresh. apply not_elem_of_cons in Hfresh as [Hne Hfresh].
    cbn [app]. rewrite !attached_cons.
    destruct (String.eqb (ConnLabel.labelName e) label) eqn:E.
    + apply String.eqb_eq in E. naive_solver.
    + by apply IH.
Qed.

Lemma attached_mutateFirst entries (labelName connName label conn : string) :
  labelName ∈ map ConnLabel.labelName entries →
  attached
    (ConnLabel.mutateFirst (λ lbl, String.eqb (ConnLabel.labelName lbl) labelName)
       (λ lbl, {| ConnLabel.labelName := ConnLabel.labelName lbl;
                  ConnLabel.connections := ConnLabel.push (ConnLabel.connections lbl) connName |})
       entries)
    label conn
  ↔ attached entries label conn ∨ (label = labelName ∧ conn = connName).
Proof.
  induction entries as [|e entries IH]; intros Hin.
  - by apply elem_of_nil in Hin.
  - cbn [ConnLabel.mutateFirst].
    destruct (String.eqb (ConnLabel.labelName e) labelName) eqn:Ee.
    + apply String.eqb_eq in Ee. rewrite !attached_cons. simpl.
      destruct (String.eqb (ConnLabel.labelName e) label) eqn:E.
      * apply String.eqb_eq in E. unfold ConnLabel.push.
        rewrite elem_of_app, list_elem_of_singleton. naive_solver.
      * apply String.eqb_neq in E. naive_solver.
    + apply String.eqb_neq in Ee. cbn [map] in Hin.
      apply elem_of_cons in Hin as [Heq|Hin]; [done|].
      rewrite !attached_cons.
      destruct (String.eqb (ConnLabel.labelName e) label) eqn:E.
      * apply String.eqb_eq in E. naive_solver.
      * by apply IH.
Qed.

Lemma addConnToLabel_labels (labelName connName : string) ext :
  ConnLabel.connLabelList (ConnLabel.addConnToLabel labelName connName ext)
  = ConnLabel.connLabelList ext.
Proof. unfold ConnLabel.addConnToLabel. by repeat case_match. Qed.

Lemma addConnToLabel_attached_aux (labelName connName : string) ext (label conn : string) :
  attached (ConnLabel.labelConnMapList (ConnLabel.addConnToLabel labelName connName ext)) label conn
  ↔ attached (ConnLabel.labelConnMapList ext) label conn
    ∨ (label = labelName ∧ conn = connName ∧ knownLabel ext labelName).
Proof.
  unfold ConnLabel.addConnToLabel.
  destruct (find _ (ConnLabel.connLabelList ext)) as [lbl|] eqn:Hlabel.
  2:{ assert (¬ knownLabel ext labelName) as Hunknown.
      { intros [? Hk]%find_name_known. congruence. }
      naive_solver. }
  assert (knownLabel ext labelName) as Hknown by (apply find_name_known; eauto).
  destruct (0 <? length (ConnLabel.labelConnMapList ext))%nat eqn:Hlen.
  2:{ destruct (ConnLabel.labelConnMapList ext) as [|? ?] eqn:Hlist; [|done]. simpl.
      rewrite attached_push_fresh by (by intros ?%elem_of_nil). naive_solver. }
  destruct (find _ (ConnLabel.labelConnMapList ext)) as [entry|] eqn:Hentry.
  2:{ simpl. apply find_label_none in Hentry.
      rewrite attached_push_fresh by done. naive_solver. }
  destruct (ConnLabel.includes (ConnLabel.connections entry) connName) eqn:Hinc; simpl.
  - apply includes_spec in Hinc. split; [by left|].
    intros [?|(-> & -> & _)]; [done|]. unfold attached. by rewrite Hentry.
  - assert (labelName ∈ map ConnLabel.labelName (ConnLabel.labelConnMapList ext)) as Hin.
    { destruct (decide (labelName ∈ map ConnLabel.labelName (ConnLabel.labelConnMapList ext)))
        as [?|Hn]; [done|]. apply find_label_none in Hn. congruence. }
    rewrite attached_mutateFirst by done. naive_solver.
Qed.

Lemma addConnToLabel_fixed (labelName connName : string) ext :
  attached (ConnLabel.labelConnMapList ext) labelName connName →
  ConnLabel.addConnToLabel labelName connName ext = ext.
Proof.
  unfold attached, ConnLabel.addConnToLabel. intros Hatt.
  destruct (find _ (ConnLabel.connLabelList ext)); [|done].
  destruct (find _ (ConnLabel.labelConnMapList ext)) as [entry|] eqn:Hentry; [|done].
  apply includes_spec in Hatt. rewrite Hatt.
  destruct (ConnLabel.labelConnMapList ext); [done|]. reflexivity.
Qed.

(** X8: [addConnToLabel] attaches the connection to the label when the label
    is a known one, and changes nothing else: a connection is attached to
    a label afterwards exactly when it was before or is the pair just
    added.  For an unknown label nothing is attached, and the list of
    labels itself is never changed. *)
Theorem addConnToLabel_attached (labelName connName : string) ext :
  ConnLabel.connLabelList (ConnLabel.addConnToLabel labelName connName ext)
  = ConnLabel.connLabelList ext
  ∧ ∀ label conn,
      attached (ConnLabel.labelConnMapList (ConnLabel.addConnToLabel labelName connName ext))
               label conn
      ↔ attached (ConnLabel.labelConnMapList ext) label conn
        ∨ (label = labelName ∧ conn = connName ∧ knownLabel ext labelName).
Proof.
  split; [apply addConnToLabel_labels|]. intros. apply addConnToLabel_attached_aux.
Qed.

(** X9: attaching a connection twice is the same as attaching it once, and
    attaching it under a label that is not known changes nothing. *)
Theorem addConnToLabel_idempotent (labelName connName : string) ext :
  ConnLabel.addConnToLabel labelName connName
    (ConnLabel.addConnToLabel labelName connName ext)
  = ConnLabel.addConnToLabel labelName connName ext
  ∧ (¬ knownLabel ext labelName → ConnLabel.addConnToLabel labelName connName ext = ext).
Proof.
  split.
  - destruct (find (λ lbl, String.eqb (ConnLabel.name lbl) labelName)
                (ConnLabel.connLabelList ext)) as [lbl|] eqn:Hlabel.
    + apply addConnToLabel_fixed, addConnToLabel_attached_aux. right.
      split; [done|]. split; [done|]. apply find_name_known. eauto.
    + assert (ConnLabel.addConnToLabel labelName connName ext = ext) as Hfix
        by (unfold ConnLabel.addConnToLabel; by rewrite Hlabel).
      by rewrite !Hfix.
  - intros Hunknown. unfold ConnLabel.addConnToLabel.
    destruct (find _ (ConnLabel.connLabelList ext)) eqn:Hlabel; [|done].
    exfalso. apply Hunknown, find_name_known. eauto.
Qed.

End ConnLabelProperties.

Section ConnLabelMaps.

Context {Color : Type} (colorName : Color → string).

Implicit Types (ext : ConnLabel.Ext Color) (entries : list ConnLabel.ConnectionLabels).

Lemma filter_ne_absent (connections : list string) (connName : string) :
  connName ∉ connections →
  List.filter (λ conn, negb (String.eqb conn connName)) connections = connections.
Proof.
  induction connections as [|c cs IH]; simpl; [done|].
  intros [Hne Hnot]%not_elem_of_cons.
  destruct (String.eqb c connName) eqn:E; simpl.
  - apply String.eqb_eq in E. congruence.
  - by rewrite IH.
Qed.

Lemma removed_connections (entry : ConnLabel.ConnectionLabels) (connName : string) :
  ConnLabel.connections
    (if ConnLabel.includes (ConnLabel.connections entry) connName
     then {| ConnLabel.labelName := ConnLabel.labelName entry;
             ConnLabel.connections :=
               List.filter (λ conn, negb (String.eqb conn connName))
                 (ConnLabel.connections entry) |}
     else entry)
  = List.filter (λ conn, negb (String.eqb conn connName)) (ConnLabel.connections entry)
  ∧ ConnLabel.labelName
      (if ConnLabel.includes (ConnLabel.connections entry) connName
       then {| ConnLabel.labelName := ConnLabel.labelName entry;
               ConnLabel.connections :=
                 List.filter (λ conn, negb (String.eqb conn connName))
                   (ConnLabel.connections entry) |}
       else entry)
    = ConnLabel.labelName entry.
Proof.
  destruct (ConnLabel.includes _ _) eqn:Hinc; [done|]. split; [|done].
  symmetry. apply filter_ne_absent.
  intros Hin%includes_spec. congruence.
Qed.

Lemma elem_of_filter_ne (connections : list string) (connName conn : string) :
  conn ∈ List.filter (λ c, negb (String.eqb c connName)) connections
  ↔ conn ∈ connections ∧ conn ≠ connName.
Proof.
  rewrite !list_elem_of_In, filter_In, negb_true_iff, String.eqb_neq. tauto.
Qed.

Lemma removeConnFromLabels_attached_aux (connName : string) ext (label conn : string) :
  attached (ConnLabel.labelConnMapList (ConnLabel.removeConnFromLabels connName ext)) label conn
  ↔ attached (ConnLabel.labelConnMapList ext) label conn ∧ conn ≠ connName.
Proof.
  unfold ConnLabel.removeConnFromLabels; simpl.
  induction (ConnLabel.labelConnMapList ext) as [|e entries IH]; simpl.
  - unfold attached; simpl. tauto.
  - rewrite !attached_cons.
    destruct (removed_connections e connName) as [-> ->].
    destruct (String.eqb (ConnLabel.labelName e) label); [|done].
    apply elem_of_filter_ne.
Qed.

(** X10: [removeConnFromLabels] detaches the connection from every entry and
    from nothing else: the entries keep their labels and their order, none
    is dropped even when it is left without connections, and each keeps
    its other connections in order. *)
Theorem removeConnFromLabels_detaches (connName : string) ext :
  let entries' := ConnLabel.labelConnMapList (ConnLabel.removeConnFromLabels connName ext) in
  ConnLabel.connLabelList (ConnLabel.removeConnFromLabels connName ext)
  = ConnLabel.connLabelList ext
  ∧ map ConnLabel.labelName entries' = map ConnLabel.labelName (ConnLabel.labelConnMapList ext)
  ∧ map ConnLabel.connections entries'
    = map (λ entry, List.filter (λ conn, negb (String.eqb conn connName))
                      (ConnLabel.connections entry))
        (ConnLabel.labelConnMapList ext)
  ∧ ∀ entry, entry ∈ entries' → connName ∉ ConnLabel.connections entry.
Proof.
  unfold ConnLabel.removeConnFromLabels; simpl. split; [done|].
  induction (ConnLabel.labelConnMapList ext) as [|e entries (IH1 & IH2 & IH3)]; simpl.
  - split; [done|]. split; [done|]. by intros ? ?%elem_of_nil.
  - destruct (removed_connections e connName) as [Hc Hl].
    rewrite Hc, Hl, IH1, IH2. split; [done|]. split; [done|].
    intros entry [->|Hin]%elem_of_cons; [|by apply IH3].
    rewrite Hc, elem_of_filter_ne. tauto.
Qed.

Lemma handle_fold_attached (connName : string) (labels : list string) :
  ∀ ext,
    let ext' := foldl (λ ext label, ConnLabel.addConnToLabel label connName ext) ext labels in
    ConnLabel.connLabelList ext' = ConnLabel.connLabelList ext
    ∧ ∀ label conn,
        attached (ConnLabel.labelConnMapList ext') label conn
        ↔ attached (ConnLabel.labelConnMapList ext) label conn
          ∨ (conn = connName ∧ label ∈ labels ∧ knownLabel ext label).
Proof.
  induction labels as [|l labels IH]; intros ext; simpl.
  - split; [done|]. intros label conn. split; [by left|].
    intros [?|(_ & ?%elem_of_nil & _)]; done.
  - destruct (IH (ConnLabel.addConnToLabel l connName ext)) as [Hlabels Hatt].
    split; [by rewrite Hlabels, addConnToLabel_labels|].
    intros label conn. rewrite Hatt, addConnToLabel_attached_aux.
    unfold knownLabel. rewrite addConnToLabel_labels, elem_of_cons.
    naive_solver.
Qed.

(** X11: after [handleLabelsConnMap labels connName] the connection is attached
    to exactly the known labels among [labels]; what was attached to other
    connections is as before.  The one effect is the update of the
    configuration with the resulting map list. *)
Theorem handleLabelsConnMap_exact (labels : list string) (connName : string) ext :
  let result := ConnLabel.handleLabelsConnMap labels connName ext in
  result.2 = [ConnLabel.UpdateLabelsConnectionMap (ConnLabel.labelConnMapList result.1)]
  ∧ ConnLabel.connLabelList result.1 = ConnLabel.connLabelList ext
  ∧ ∀ label conn,
      attached (ConnLabel.labelConnMapList result.1) label conn
      ↔ (conn ≠ connName ∧ attached (ConnLabel.labelConnMapList ext) label conn)
        ∨ (conn = connName ∧ label ∈ labels ∧ knownLabel ext label).
Proof.
  unfold ConnLabel.handleLabelsConnMap; simpl. split; [done|].
  destruct (handle_fold_attached connName labels (ConnLabel.removeConnFromLabels connName ext))
    as [Hlabels Hatt].
  split; [by rewrite Hlabels|].
  intros label conn. rewrite Hatt, removeConnFromLabels_attached_aux.
  unfold knownLabel; simpl. tauto.
Qed.

Lemma mutateFirst_names {A B} (p : A → bool) (f : A → A) (g : A → B) (array : list A) :
  (∀ x, g (f x) = g x) → map g (ConnLabel.mutateFirst p f array) = map g array.
Proof.
  intros Hg. induction array as [|x array IH]; simpl; [done|].
  destruct (p x); simpl; [by rewrite Hg | by rewrite IH].
Qed.

Lemma mutateFirst_Forall {A} (p : A → bool) (f : A → A) (Q : A → Prop) (array : list A) :
  Forall Q array → (∀ x, find p array = Some x → Q (f x)) →
  Forall Q (ConnLabel.mutateFirst p f array).
Proof.
  induction 1 as [|x array Hx Hall IH]; simpl; intros Hf; [done|].
  destruct (p x); constructor; auto.
Qed.

Lemma addConnToLabel_well_formed (labelName connName : string) ext :
  wellFormedMap (ConnLabel.labelConnMapList ext) →
  wellFormedMap (ConnLabel.labelConnMapList (ConnLabel.addConnToLabel labelName connName ext)).
Proof.
  intros [Hnames Hconns].
  assert (wellFormedMap
            (ConnLabel.push (ConnLabel.labelConnMapList ext)
               {| ConnLabel.labelName := labelName; ConnLabel.connections := [connName] |})
          ∨ labelName ∈ map ConnLabel.labelName (ConnLabel.labelConnMapList ext)) as Hpush.
  { destruct (decide (labelName ∈ map ConnLabel.labelName (ConnLabel.labelConnMapList ext)))
      as [?|Hfresh]; [by right|]. left.
    unfold ConnLabel.push. split.
    - rewrite map_app. apply NoDup_app. split; [done|]. split.
      + intros x Hx [->|[]%elem_of_nil]%elem_of_cons. done.
      + apply NoDup_singleton.
    - apply Forall_app. split; [done|]. constructor; [apply NoDup_singleton | done]. }
  unfold ConnLabel.addConnToLabel.
  destruct (find _ (ConnLabel.connLabelList ext)); [|done].
  destruct (0 <? length (ConnLabel.labelConnMapList ext))%nat eqn:Hlen.
  2:{ destruct Hpush as [?|Hin]; [done|].
      destruct (ConnLabel.labelConnMapList ext); [by apply elem_of_nil in Hin | done]. }
  destruct (find _ (ConnLabel.labelConnMapList ext)) as [entry|] eqn:Hentry.
  2:{ destruct Hpush as [?|Hin]; [done|]. by apply find_label_none in Hentry. }
  destruct (ConnLabel.includes (ConnLabel.connections entry) connName) eqn:Hinc; simpl; [done|].
  split.
  - by rewrite mutateFirst_names.
  - apply mutateFirst_Forall; [done|]. intros x Hx. simpl.
    assert (x = entry) as -> by congruence.
    unfold ConnLabel.push. apply NoDup_app. split.
    + apply (proj1 (Forall_forall _ _) Hconns entry).
      apply list_elem_of_In. by eapply find_some.
    + split; [|apply NoDup_singleton].
      intros c Hc [->|[]%elem_of_nil]%elem_of_cons.
      apply includes_spec in Hc. congruence.
Qed.

Lemma NoDup_List_filter {A} (f : A → bool) (l : list A) :
  NoDup l → NoDup (List.filter f l).
Proof.
  induction 1 as [|x l Hx Hl IH]; simpl; [constructor|].
  destruct (f x); [|done]. constructor; [|done].
  intros Hin%list_elem_of_In%filter_In. apply Hx, list_elem_of_In. tauto.
Qed.

Lemma removeConnFromLabels_well_formed (connName : string) ext :
  wellFormedMap (ConnLabel.labelConnMapList ext) →
  wellFormedMap (ConnLabel.labelConnMapList (ConnLabel.removeConnFromLabels connName ext)).
Proof.
  intros [Hnames Hconns]. unfold ConnLabel.removeConnFromLabels; simpl. split.
  - rewrite map_map.
    erewrite map_ext; [exact Hnames|]. intros e. simpl.
    by destruct (removed_connections e connName) as [_ ->].
  - apply Forall_map. eapply Forall_impl; [exact Hconns|]. intros e He. simpl.
    destruct (removed_connections e connName) as [-> _].
    by apply NoDup_List_filter.
Qed.

(** X12: a map list with one entry for each label and no connection twice in an
    entry stays so under [addConnToLabel], [removeConnFromLabels] and
    [handleLabelsConnMap]. *)
Theorem labelConnMapList_stays_well_formed (labels : list string)
    (labelName connName : string) ext :
  wellFormedMap (ConnLabel.labelConnMapList ext) →
  wellFormedMap (ConnLabel.labelConnMapList (ConnLabel.addConnToLabel labelName connName ext))
  ∧ wellFormedMap (ConnLabel.labelConnMapList (ConnLabel.removeConnFromLabels connName ext))
  ∧ wellFormedMap
      (ConnLabel.labelConnMapList (ConnLabel.handleLabelsConnMap labels connName ext).1).
Proof.
  intros Hwf. split; [by apply addConnToLabel_well_formed|].
  split; [by apply removeConnFromLabels_well_formed|].
  unfold ConnLabel.handleLabelsConnMap; simpl.
  apply (removeConnFromLabels_well_formed connName) in Hwf.
  revert Hwf. generalize (ConnLabel.removeConnFromLabels connName ext).
  induction labels as [|l labels IH]; intros e Hwf; simpl; [done|].
  by apply IH, addConnToLabel_well_formed.
Qed.

(** X13: [createNewLabel] first reloads the labels from the configuration, so
    the labels held in memory before play no part.  With a name that is
    not empty and a colour of the given name, the new label is appended and
    the configuration is updated with the new list; with an empty name or
    without such a colour the labels are those of the configuration and
    only errors are logged, the colour error also for an empty name. *)
Theorem createNewLabel_outcome (config : ConnLabel.Configuration Color)
    (name colorName' : string) ext :
  let configured := default [] (ConnLabel.kdb_connectionLabels config) in
  let found := find (λ color, String.eqb (colorName color) colorName') (ConnLabel.labelColors ext) in
  let result := ConnLabel.createNewLabel colorName config name colorName' ext in
  ConnLabel.labelConnMapList result.1 = ConnLabel.labelConnMapList ext
  ∧ ConnLabel.labelColors result.1 = ConnLabel.labelColors ext
  ∧ (name ≠ EmptyString →
     ∀ color, found = Some color →
       let list := configured ++ [{| ConnLabel.name := name; ConnLabel.color := color |}] in
       ConnLabel.connLabelList result.1 = list
       ∧ result.2 = [ConnLabel.UpdateConnectionLabels list])
  ∧ (name ≠ EmptyString → found = None →
     ConnLabel.connLabelList result.1 = configured
     ∧ result.2 = [ConnLabel.OutputLog "No Color selected for the label" "ERROR"])
  ∧ (name = EmptyString →
     ConnLabel.connLabelList result.1 = configured
     ∧ result.2 = [ConnLabel.OutputLog "Label name can't be empty" "ERROR";
                   ConnLabel.OutputLog "No Color selected for the label" "ERROR"]).
Proof.
  intros configured found result.
  assert (ConnLabel.connLabelList (ConnLabel.getWorkspaceLabels config ext) = configured) as Hload.
  { unfold ConnLabel.getWorkspaceLabels, configured; simpl.
    destruct (ConnLabel.kdb_connectionLabels config) as [[|l existing]|]; simpl; try done.
    by rewrite foldl_push. }
  unfold result, ConnLabel.createNewLabel. cbv zeta.
  change (ConnLabel.labelColors (ConnLabel.getWorkspaceLabels config ext))
    with (ConnLabel.labelColors ext).
  fold found. rewrite Hload.
  destruct (String.eqb name EmptyString) eqn:Hname.
  - apply String.eqb_eq in Hname.
    destruct found; simpl; (split; [done|]); (split; [done|]);
      repeat split; intros; simplify_eq; done.
  - apply String.eqb_neq in Hname.
    destruct found as [color|]; simpl; (split; [done|]); (split; [done|]);
      repeat split; intros; simplify_eq; done.
Qed.

End ConnLabelMaps.

(** * The results panel *)

Section ResultsPanelProperties.

Context {Data : Type}.
Context (convertResultStringToVector : string → list (list string)).
Context (convertResultToVector : Data → list (list string)).

Abbreviation convertToGrid :=
  (ResultsPanel.convertToGrid convertResultStringToVector convertResultToVector).
Abbreviation vector :=
  (vectorOf convertResultStringToVector convertResultToVector).

Lemma setProperty_lookup (obj : ResultsPanel.RowObject) (key k : string) (value : option string) :
  ResultsPanel.setProperty obj key value !! k
  = if String.eqb key "__proto__" then obj !! k
    else if String.eqb key k then Some value else obj !! k.
Proof.
  unfold ResultsPanel.setProperty. destruct (String.eqb key "__proto__"); [done|].
  destruct (String.eqb key k) eqn:E.
  - apply String.eqb_eq in E as ->. apply lookup_insert_eq.
  - apply String.eqb_neq in E. by apply lookup_insert_ne.
Qed.

Lemma reduceKeys_absent (keys row : list string) (k : string) :
  k ∉ keys ∨ k = "__proto__" →
  ∀ index obj, ResultsPanel.reduceKeys keys row index obj !! k = obj !! k.
Proof.
  induction keys as [|key keys IH]; intros Hk index obj; simpl; [done|].
  rewrite IH.
  - rewrite setProperty_lookup.
    destruct (String.eqb key "__proto__") eqn:Ep; [done|].
    destruct (String.eqb key k) eqn:E; [|done].
    apply String.eqb_eq in E as ->. apply String.eqb_neq in Ep.
    destruct Hk as [Hk|Hk]; [|done]. exfalso. apply Hk, list_elem_of_here.
  - destruct Hk as [Hk|Hk]; [|by right]. left. by apply not_elem_of_cons in Hk as [_ ?].
Qed.

Lemma reduceKeys_last (row : list string) (k : string) (pre post : list string) :
  k ∉ post → k ≠ "__proto__" →
  ∀ index obj,
    ResultsPanel.reduceKeys (pre ++ k :: post) row index obj !! k
    = Some (row !! (index + length pre)).
Proof.
  intros Hpost Hproto. induction pre as [|key pre IH]; intros index obj; simpl.
  - rewrite reduceKeys_absent by (by left). rewrite setProperty_lookup.
    apply String.eqb_neq in Hproto. rewrite Hproto, String.eqb_refl.
    by rewrite Nat.add_0_r.
  - rewrite IH. by rewrite Nat.add_succ_r.
Qed.

(** X14: in a row object the field of a column holds the cell of that column.
    Of two columns with one name the later one gives the cell; a name that
    is no column is no field; and a column called __proto__ never becomes a
    field. *)
Theorem rowObject_fields (row : list string) (k : string) (pre post : list string) :
  (k ∉ post → k ≠ "__proto__" →
   ResultsPanel.reduceKeys (pre ++ k :: post) row 0 ∅ !! k = Some (row !! length pre))
  ∧ (k ∉ pre ++ post →
     ResultsPanel.reduceKeys (pre ++ post) row 0 ∅ !! k = None)
  ∧ ResultsPanel.reduceKeys (pre ++ "__proto__" :: post) row 0 ∅ !! "__proto__" = None.
Proof.
  split; [|split].
  - intros Hpost Hproto. by rewrite reduceKeys_last.
  - intros Hk. by rewrite reduceKeys_absent by (by left).
  - by rewrite reduceKeys_absent by (by right).
Qed.

Lemma convertToGrid_vector (queryResult : ResultsPanel.QueryResult) (csv : string) :
  queryResult ≠ ResultsPanel.ResultString EmptyString →
  convertToGrid queryResult csv
  = let vectorRes := vector queryResult in
    if (length vectorRes =? 1)%nat then
      (ResultsPanel.Return
         (ResultsPanel.Markup
            ("<p>" +:+ ResultsPanel.joinWith "," (default [] (head vectorRes)) +:+ "</p>")),
       csv)
    else
      let csv' :=
        ResultsPanel.joinWith (String (ascii_of_nat 10) EmptyString)
          (map (ResultsPanel.joinWith ",") vectorRes) in
      match head vectorRes with
      | Some keys =>
          (ResultsPanel.Return
             (ResultsPanel.Grid
                {| ResultsPanel.defaultColDef :=
                     {| ResultsPanel.sortable := true; ResultsPanel.resizable := true;
                        ResultsPanel.filter := true; ResultsPanel.flex := 1;
                        ResultsPanel.minWidth := 100 |};
                   ResultsPanel.rowData :=
                     map (λ row, ResultsPanel.reduceKeys keys row 0 ∅) (drop 1 vectorRes);
                   ResultsPanel.columnDefs := keys |}),
           csv')
      | None => (ResultsPanel.TypeError, csv')
      end.
Proof.
  intros Hne. destruct queryResult as [[|a text]|data]; done.
Qed.

(** X15: a result of two rows or more becomes a grid, and the CSV text of the
    state becomes the rows joined by commas and lines.  The columns of the
    grid are the first row, there is one row object for each further row,
    in order, and with column names that are distinct the field of a column
    in a row object holds the cell of that row in that column, or
    [undefined] when the row is too short. *)
Theorem convertToGrid_grid (queryResult : ResultsPanel.QueryResult) (csv : string)
    (header first : list string) (rest : list (list string)) :
  queryResult ≠ ResultsPanel.ResultString EmptyString →
  vector queryResult = header :: first :: rest →
  ∃ options,
    convertToGrid queryResult csv
    = (ResultsPanel.Return (ResultsPanel.Grid options),
       ResultsPanel.joinWith (String (ascii_of_nat 10) EmptyString)
         (map (ResultsPanel.joinWith ",") (header :: first :: rest)))
    ∧ ResultsPanel.columnDefs options = header
    ∧ length (ResultsPanel.rowData options) = S (length rest)
    ∧ (NoDup header → "__proto__" ∉ header →
       ∀ j row i key,
         (first :: rest) !! j = Some row → header !! i = Some key →
         ∃ obj, ResultsPanel.rowData options !! j = Some obj
                ∧ obj !! key = Some (row !! i)).
Proof.
  intros Hne Hvector. rewrite convertToGrid_vector by done. cbv zeta.
  rewrite Hvector. cbn [length Nat.eqb head drop].
  eexists. split; [reflexivity|]. cbn [ResultsPanel.columnDefs ResultsPanel.rowData].
  split; [done|]. split; [by rewrite length_map|].
  intros Hnodup Hproto j row i key Hrow Hkey.
  exists (ResultsPanel.reduceKeys header row 0 ∅). split.
  - by rewrite list_lookup_fmap, Hrow.
  - pose proof (take_drop_middle _ _ _ Hkey) as Hsplit.
    rewrite <- Hsplit in Hnodup.
    apply NoDup_app in Hnodup as (_ & _ & [Hpost _]%NoDup_cons).
    rewrite <- Hsplit at 1. rewrite reduceKeys_last.
    + rewrite length_take, Nat.min_l; [done|].
      apply Nat.lt_le_incl. by eapply lookup_lt_Some.
    + done.
    + intros ->. apply Hproto. by eapply list_elem_of_lookup_2.
Qed.

(** X16: without two rows there is no grid.  The empty string and a result of
    one row become markup and leave the CSV text of the state as it was; a
    result without any row clears the CSV text and then fails on the
    missing first row. *)
Theorem convertToGrid_no_grid (queryResult : ResultsPanel.QueryResult) (csv : string) :
  (queryResult = ResultsPanel.ResultString EmptyString →
   convertToGrid queryResult csv
   = (ResultsPanel.Return (ResultsPanel.Markup "<p>No results to show</p>"), csv))
  ∧ (queryResult ≠ ResultsPanel.ResultString EmptyString →
     ∀ row, vector queryResult = [row] →
       convertToGrid queryResult csv
       = (ResultsPanel.Return
            (ResultsPanel.Markup ("<p>" +:+ ResultsPanel.joinWith "," row +:+ "</p>")),
          csv))
  ∧ (queryResult ≠ ResultsPanel.ResultString EmptyString →
     vector queryResult = [] →
     convertToGrid queryResult csv = (ResultsPanel.TypeError, EmptyString)).
Proof.
  split; [|split].
  - by intros ->.
  - intros Hne row Hvector. rewrite convertToGrid_vector by done. cbv zeta.
    by rewrite Hvector.
  - intros Hne Hvector. rewrite convertToGrid_vector by done. cbv zeta.
    by rewrite Hvector.
Qed.

End ResultsPanelProperties.

(** * Completion items of the extension *)

Lemma countDots_length (x : string) : Extension.countDots x ≤ String.length x.
Proof. induction x as [|a x IH]; simpl; [done|]. destruct (Ascii.eqb a JS.dot); lia. Qed.

(** X17: the inserted text of a name is the name itself exactly when the name
    has one dot at most; a name with more dots loses its first character,
    whichever it is, and nothing else. *)
Theorem getInsertText_fixed (x : string) :
  (Extension.getInsertText x = x ↔ Extension.countDots x ≤ 1)
  ∧ (1 < Extension.countDots x → ∃ a, x = String a (Extension.getInsertText x)).
Proof.
  unfold Extension.getInsertText.
  destruct (1 <? Extension.countDots x)%nat eqn:E.
  - apply Nat.ltb_lt in E. split.
    + split; [|lia]. destruct x as [|a x]; simpl in *; [lia|].
      intros Heq. apply (f_equal String.length) in Heq. simpl in Heq. lia.
    + intros _. destruct x as [|a x]; simpl in *; [lia|]. by exists a.
  - apply Nat.ltb_ge in E. split; [done | lia].
Qed.

Lemma foldl_append_map {A B} (g : A → B) (l : list A) (acc : list B) :
  foldl (λ items x, items ++ [g x]) acc l = acc ++ map g l.
Proof.
  revert acc. induction l as [|x l IH]; intros acc; simpl.
  - by rewrite app_nil_r.
  - rewrite IH. by rewrite <- app_assoc.
Qed.

(** X18: the completion items list the keywords, the functions, the tables and
    the variables, in that order and under their own names.  A keyword has
    no text to insert; every other item inserts the text that
    [getInsertText] gives for its name, and its kind is the one of its
    list. *)
Theorem provideCompletionItems_items (ext : Extension.Names) :
  let items := Extension.provideCompletionItems ext in
  map Extension.label items
  = Extension.keywords ext ++ Extension.functions ext ++ Extension.tables ext
    ++ Extension.variables ext
  ∧ map Extension.kind items
    = (const Extension.KindKeyword <$> Extension.keywords ext)
      ++ (const Extension.KindFunction <$> Extension.functions ext)
      ++ (const Extension.KindValue <$> Extension.tables ext)
      ++ (const Extension.KindVariable <$> Extension.variables ext)
  ∧ Forall (λ item,
       Extension.insertText item
       = match Extension.kind item with
         | Extension.KindKeyword => None
         | _ => Some (Extension.getInsertText (Extension.label item))
         end) items.
Proof.
  unfold Extension.provideCompletionItems. cbv zeta.
  rewrite !foldl_append_map. cbn [app].
  rewrite !map_app, !map_map. cbn [Extension.label Extension.kind].
  rewrite !map_id. split; [by rewrite <- !app_assoc|]. split; [by rewrite <- !app_assoc|].
  rewrite !Forall_app, !Forall_forall.
  repeat split; by intros item (x & -> & _)%list_elem_of_fmap.
Qed.

(** * The further properties on the sample data *)

(** The cursor right behind the qualified name of the sample document. *)
Lemma covers_single_line_witness :
  covers Fixture.heap 18 (Position.create 3 5).
Proof.
  apply (covers_single_line Fixture.heap 18 4 1 5 (Position.create 3 5));
    try reflexivity.
  split; [reflexivity | simpl; lia].
Defined.

(** The cursor between the first name of the sample document and its colon. *)
Lemma positionToToken_boundary_witness :
  covers Fixture.heap 1 (Position.create (1 - 1) 1)
  ∧ positionToToken Fixture.heap ([] ++ 0 :: seq 1 25) (Position.create (1 - 1) 1) = Some 0.
Proof.
  apply (positionToToken_boundary Fixture.heap [] (seq 1 25) 0 1 1 1 1 2);
    try reflexivity.
  - apply list_elem_of_here.
  - lia.
  - intros other Hin. by apply elem_of_nil in Hin.
Defined.

Lemma rangeFromToken_forward_witness :
  positionBefore (Range.start (rangeFromToken Fixture.heap 18))
                 (Range.end_ (rangeFromToken Fixture.heap 18)).
Proof.
  apply (rangeFromToken_forward Fixture.heap 18).
  right. split; [reflexivity | simpl; lia].
Defined.

(** The outline of the sample document. *)
Lemma onDocumentSymbol_well_formed_witness :
  ∃ symbols,
    QLangServer.onDocumentSymbol (parser := Fixture.parser) Fixture.heap 2
      (Fixture.server false) Fixture.uri = Some symbols
    ∧ Forall (λ symbol,
        everySymbol (λ s, selectsItsRange s && hasChildren s) symbol = true) symbols.
Proof.
  eexists. split; [vm_compute; reflexivity|].
  apply (onDocumentSymbol_well_formed Fixture.heap (parser := Fixture.parser) 2
           (Fixture.server false) Fixture.uri).
  vm_compute. reflexivity.
Defined.

(** Linting is on and the change only names the debug flag: afterwards the
    debug flag is on and linting is off. *)
Lemma onDidChangeConfiguration_flags_witness :
  ∃ this',
    QLangServerSettings.onDidChangeConfiguration
      {| QLangServer.settings := {| debug := false; linting := true |};
         QLangServer.documents := ∅ |}
      (JObject [("kdb", JObject [("debug_parser", JBool true)])]) = Some this'
    ∧ debug (QLangServer.settings this') = true
    ∧ linting (QLangServer.settings this') = false.
Proof.
  destruct (onDidChangeConfiguration_flags
              {| QLangServer.settings := {| debug := false; linting := true |};
                 QLangServer.documents := ∅ |}
              [("kdb", JObject [("debug_parser", JBool true)])]
              (JObject [("debug_parser", JBool true)]) eq_refl)
    as (this' & Hthis & _ & Hdebug & Hlinting); [discriminate|].
  exists this'. split; [exact Hthis|]. split.
  - apply Hdebug. eexists. split; reflexivity.
  - destruct (linting (QLangServer.settings this')); [|reflexivity].
    destruct (proj1 Hlinting eq_refl) as (flags & Hflags & Hmember).
    injection Hflags as <-. discriminate Hmember.
Defined.

Lemma onDidChangeConfiguration_other_witness :
  QLangServerSettings.onDidChangeConfiguration (Fixture.server true) (JObject [])
  = Some (Fixture.server true)
  ∧ QLangServerSettings.onDidChangeConfiguration (Fixture.server true) JNull = None.
Proof.
  split.
  - apply (proj1 (onDidChangeConfiguration_other (Fixture.server true) (JObject []))).
    right. eexists. split; reflexivity.
  - apply (proj2 (proj2 (onDidChangeConfiguration_other (Fixture.server true) JNull))).
    split; intros; discriminate.
Defined.

(** A label that is not defined, and a connection attached twice. *)
Lemma addConnToLabel_idempotent_witness :
  ConnLabel.addConnToLabel "staging" "local" ConnLabel.sampleExt = ConnLabel.sampleExt
  ∧ ConnLabel.addConnToLabel "test" "local"
      (ConnLabel.addConnToLabel "test" "local" ConnLabel.sampleExt)
    = ConnLabel.addConnToLabel "test" "local" ConnLabel.sampleExt.
Proof.
  split.
  - apply (proj2 (addConnToLabel_idempotent "staging" "local" ConnLabel.sampleExt)).
    unfold knownLabel; simpl. intros Hin.
    repeat (apply elem_of_cons in Hin as [Hin|Hin]; [discriminate Hin|]).
    by apply elem_of_nil in Hin.
  - apply (proj1 (addConnToLabel_idempotent "test" "local" ConnLabel.sampleExt)).
Defined.

Ltac distinct_strings :=
  repeat (apply NoDup_cons_2;
          [ let Hin := fresh "Hin" in
            intros Hin;
            repeat (apply elem_of_cons in Hin as [Hin|Hin]; [discriminate Hin|]);
            by apply elem_of_nil in Hin
          | ]);
  apply NoDup_nil_2.

Lemma labelConnMapList_stays_well_formed_witness :
  wellFormedMap
    (ConnLabel.labelConnMapList
       (ConnLabel.handleLabelsConnMap ["dev"; "test"] "insights" ConnLabel.sampleExt).1).
Proof.
  apply (labelConnMapList_stays_well_formed ["dev"; "test"] "dev" "insights" ConnLabel.sampleExt).
  split.
  - simpl. distinct_strings.
  - simpl. repeat (apply Forall_cons_2; [simpl; distinct_strings|]). apply Forall_nil_2.
Defined.

(** A new label of a known colour, and a label without a name. *)
Lemma createNewLabel_outcome_witness :
  (ConnLabel.createNewLabel id ConnLabel.sampleConfig "staging" "blue" ConnLabel.sampleExt).2
  = [ConnLabel.UpdateConnectionLabels
       (default [] (ConnLabel.kdb_connectionLabels ConnLabel.sampleConfig)
        ++ [{| ConnLabel.name := "staging"; ConnLabel.color := "blue" |}])]
  ∧ (ConnLabel.createNewLabel id ConnLabel.sampleConfig EmptyString "blue" ConnLabel.sampleExt).2
    = [ConnLabel.OutputLog "Label name can't be empty" "ERROR";
       ConnLabel.OutputLog "No Color selected for the label" "ERROR"].
Proof.
  split.
  - apply (proj1 (proj2 (proj2 (createNewLabel_outcome id ConnLabel.sampleConfig
                                  "staging" "blue" ConnLabel.sampleExt)))).
    + discriminate.
    + reflexivity.
  - apply (proj2 (proj2 (proj2 (proj2 (createNewLabel_outcome id ConnLabel.sampleConfig
                                         EmptyString "blue" ConnLabel.sampleExt))))).
    reflexivity.
Defined.

(** Two columns of one name: the later one gives the cell. *)
Lemma rowObject_fields_witness :
  ResultsPanel.reduceKeys (["sym"; "px"] ++ "sym" :: []) ["a"; "1"; "b"] 0 ∅ !! "sym"
  = Some (["a"; "1"; "b"] !! length ["sym"; "px"]).
Proof.
  apply (proj1 (rowObject_fields ["a"; "1"; "b"] "sym" ["sym"; "px"] [])).
  - intros Hin. by apply elem_of_nil in Hin.
  - discriminate.
Defined.

(** The sample table: two columns, two rows, the second one short. *)
Lemma convertToGrid_grid_witness :
  ∃ options,
    ResultsPanel.convertToGrid ResultsPanel.sampleStringToVector ResultsPanel.sampleDataToVector
      (ResultsPanel.ResultString "table") EmptyString
    = (ResultsPanel.Return (ResultsPanel.Grid options),
       ResultsPanel.joinWith (String (ascii_of_nat 10) EmptyString)
         (map (ResultsPanel.joinWith ",") [["sym"; "px"]; ["a"; "1"]; ["b"]]))
    ∧ ResultsPanel.columnDefs options = ["sym"; "px"]
    ∧ length (ResultsPanel.rowData options) = 2.
Proof.
  destruct (convertToGrid_grid ResultsPanel.sampleStringToVector ResultsPanel.sampleDataToVector
              (ResultsPanel.ResultString "table") EmptyString ["sym"; "px"] ["a"; "1"] [["b"]])
    as (options & Hgrid & Hcolumns & Hrows & _).
  - discriminate.
  - reflexivity.
  - exists options. split; [exact Hgrid|]. split; [exact Hcolumns | exact Hrows].
Defined.

Lemma convertToGrid_no_grid_witness :
  ResultsPanel.convertToGrid ResultsPanel.sampleStringToVector ResultsPanel.sampleDataToVector
    (ResultsPanel.ResultString "none") "sym,px"
  = (ResultsPanel.TypeError, EmptyString)
  ∧ ResultsPanel.convertToGrid ResultsPanel.sampleStringToVector ResultsPanel.sampleDataToVector
      (ResultsPanel.ResultData [["done"]]) "sym,px"
    = (ResultsPanel.Return (ResultsPanel.Markup ("<p>" +:+ ResultsPanel.joinWith "," ["done"] +:+ "</p>")),
       "sym,px").
Proof.
  split.
  - apply (proj2 (proj2 (convertToGrid_no_grid ResultsPanel.sampleStringToVector
                           ResultsPanel.sampleDataToVector
                           (ResultsPanel.ResultString "none") "sym,px"))).
    + discriminate.
    + reflexivity.
  - apply (proj1 (proj2 (convertToGrid_no_grid ResultsPanel.sampleStringToVector
                           ResultsPanel.sampleDataToVector
                           (ResultsPanel.ResultData [["done"]]) "sym,px"))).
    + discriminate.
    + reflexivity.
Defined.

(** * Saving and reloading the labels *)

Section ConnLabelRoundTrip.

Context {Color : Type} (colorName : Color → string).

Lemma reload_some {A} (value : list A) :
  (if (0 <? length value)%nat then foldl ConnLabel.push [] value else []) = value.
Proof. destruct value; simpl; [done|]. by rewrite foldl_push. Qed.

(** X19: what is saved is what is loaded.  After [handleLabelsConnMap] and
    after [createNewLabel], reloading from the configuration as the call
    left it gives the very list that the call left in memory, whatever
    the memory holds at the time of the reload. *)
Theorem labels_round_trip (config : ConnLabel.Configuration Color)
    (labels : list string) (connName name colorName' : string)
    (ext other : ConnLabel.Ext Color) :
  (let result := ConnLabel.handleLabelsConnMap labels connName ext in
   ConnLabel.labelConnMapList
     (ConnLabel.getWorkspaceLabelsConnMap (foldl applyEffect config result.2) other)
   = ConnLabel.labelConnMapList result.1)
  ∧ (let result := ConnLabel.createNewLabel colorName config name colorName' ext in
     ConnLabel.connLabelList
       (ConnLabel.getWorkspaceLabels (foldl applyEffect config result.2) other)
     = ConnLabel.connLabelList result.1).
Proof.
  split.
  - unfold ConnLabel.handleLabelsConnMap, ConnLabel.getWorkspaceLabelsConnMap; simpl.
    apply reload_some.
  - assert (∀ config' e,
              ConnLabel.connLabelList (ConnLabel.getWorkspaceLabels (Color := Color) config' e)
              = default [] (ConnLabel.kdb_connectionLabels config')) as Hload.
    { intros config' e. unfold ConnLabel.getWorkspaceLabels.
      cbn [ConnLabel.connLabelList].
      destruct (ConnLabel.kdb_connectionLabels config'); [apply reload_some | done]. }
    unfold ConnLabel.createNewLabel. cbv zeta.
    destruct (find _ _) as [color|]; destruct (String.eqb name EmptyString);
      cbn [negb fst snd app foldl applyEffect ConnLabel.connLabelList];
      by rewrite !Hload.
Qed.

End ConnLabelRoundTrip.
